(** * Matchmaking and signaling relay of the video-chat server

    A shallow embedding of [server/src/index.js]: the three module-level
    structures ([waitingQueue], [peers], [userInfo]), the helper functions
    [cleanupUser] and [findMatch], the per-socket event handlers
    (connection, signal, find-next, disconnect, error) and the periodic
    queue sweep, followed by the properties of the matchmaking core. *)

From Stdlib Require Import ZArith QArith Ascii String List Lia.

From stdpp Require Import base gmap strings list fin_maps.

(** ** JavaScript values carried by signaling payloads *)

(** A payload is whatever the client passed to [emit("signal", ...)]: it is
    relayed as it is, and the handler reads only its [type] property. *)
Inductive JsValue : Type :=
  | JUndefined
  | JNull
  | JBool (b : bool)
  | JNumber (z : Z)
  | JString (s : string)
  | JObject (fields : JsFields)
with JsFields : Type :=
  | FNil
  | FCons (key : string) (value : JsValue) (rest : JsFields).

Fixpoint field_lookup (k : string) (fields : JsFields) : JsValue :=
  match fields with
  | FNil => JUndefined
  | FCons k' v rest => if String.eqb k k' then v else field_lookup k rest
  end.

(** Property read [v.type]: a TypeError on [undefined] and [null] (the
    result carries [error.message]), the field of an object, and
    [undefined] on the other primitives. *)
Definition get_type (v : JsValue) : JsValue + string :=
  match v with
  | JUndefined => inr "Cannot read properties of undefined (reading 'type')"
  | JNull => inr "Cannot read properties of null (reading 'type')"
  | JObject fields => inl (field_lookup "type" fields)
  | _ => inl JUndefined
  end.

(** Truthiness of a socket identifier, as tested by [if (peerSocketId)]:
    of all strings only the empty one is falsy. *)
Definition truthy (s : string) : bool :=
  match s with
  | EmptyString => false
  | String _ _ => true
  end.

(** ** Data structures *)

(** The [user] object built by the connection handler. *)
Record User : Type := mkUser {
  socketId : string;
  joinedAt : Z;
  userAgent : option string
}.

(** [waitingQueue], [peers] and [userInfo] are the module-level variables.
    [sockets] stands for [io.sockets.sockets], the transport's table of
    connected sockets; each socket is represented by the [user] constant
    its handlers close over. *)
Record State : Type := mkState {
  waitingQueue : list User;
  peers : gmap string string;
  userInfo : gmap string User;
  sockets : gmap string User
}.

Definition initial : State :=
  {| waitingQueue := []; peers := ∅; userInfo := ∅; sockets := ∅ |}.

(** Events sent to a client. *)
Inductive ServerEvent : Type :=
  | MatchFound (peerSocketId : string) (isInitiator : bool)
  | WaitingForPeer
  | SignalMsg (payload : JsValue)
  | PeerDisconnected
  | ErrorEvent (message : string).

(** The [details] argument of [logConnection]. *)
Inductive Details : Type :=
  | DNone
  | DUserAgent (ua : option string)
  | DPeer (peer : string)
  | DQueuePosition (n : nat)
  | DRelay (to : string) (type : JsValue)
  | DError (error : string)
  | DReason (reason : string).

(** What a handler does to the outside, in program order: a console line
    of [logConnection] or an [emit] addressed to one socket
    ([io.to(id).emit] and [socket.emit] alike). *)
Inductive Action : Type :=
  | Log (timestamp : Z) (event : string) (id : string) (details : Details)
  | Emit (to : string) (ev : ServerEvent).

Definition logConnection (now : Z) (id event : string) (details : Details) : Action :=
  Log now event id details.

(** ** Utility functions *)

(** [const p = peers.get(id); if (p) ...]: the partner when the lookup is
    truthy. *)
Definition peer_of (m : gmap string string) (id : string) : option string :=
  match m !! id with
  | Some p => if truthy p then Some p else None
  | None => None
  end.

Definition cleanupUser (id : string) (s : State) : State :=
  let peers' :=
    match peer_of (peers s) id with
    | Some p => delete id (delete p (peers s))
    | None => peers s
    end in
  {| waitingQueue :=
       List.filter (fun user => negb (String.eqb (socketId user) id)) (waitingQueue s);
     peers := peers';
     userInfo := delete id (userInfo s);
     sockets := sockets s |}.

(** [findMatch] ignores its argument: it shifts the head of the queue.
    The result is the returned identifier ([None] for [null]) and the
    queue that is left. *)
Definition findMatch (currentSocketId : string) (q : list User)
  : option string * list User :=
  match q with
  | [] => (None, [])
  | matchedUser :: rest => (Some (socketId matchedUser), rest)
  end.

(** [if (peerSocketId)] on the result of [findMatch]. *)
Definition found (r : option string) : option string :=
  match r with
  | Some p => if truthy p then Some p else None
  | None => None
  end.

(** The two branches shared by the connection and find-next handlers:
    [pair_up] is the then-branch (both [peers.set] calls, the log line and
    the two match-found events), [enqueue] the else-branch (the push, the
    log line and waiting-for-peer). *)
Definition pair_up (now : Z) (logEvent : string) (id p : string)
    (q : list User) (s : State) : State * list Action :=
  ({| waitingQueue := q;
      peers := <[p := id]> (<[id := p]> (peers s));
      userInfo := userInfo s;
      sockets := sockets s |},
   [ logConnection now id logEvent (DPeer p);
     Emit p (MatchFound id true);
     Emit id (MatchFound p false) ]).

Definition enqueue (now : Z) (logEvent : string) (user : User)
    (q : list User) (s : State) : State * list Action :=
  let q' := (q ++ [user])%list in
  ({| waitingQueue := q';
      peers := peers s;
      userInfo := userInfo s;
      sockets := sockets s |},
   [ logConnection now (socketId user) logEvent (DQueuePosition (length q'));
     Emit (socketId user) WaitingForPeer ]).

(** The matchmaking block, written out twice in the source (in the
    connection handler and in the find-next handler) with different log
    event names: [findMatch], then one of the two branches. *)
Definition matchmaking (now : Z) (foundEvent queuedEvent : string) (user : User)
    (s : State) : State * list Action :=
  let '(r, q) := findMatch (socketId user) (waitingQueue s) in
  match found r with
  | Some p => pair_up now foundEvent (socketId user) p q s
  | None => enqueue now queuedEvent user q s
  end.

(** ** Handlers *)

(** [io.on("connection")], up to the registration of the socket's own
    handlers.  [now] is the clock reading of the handler's run. *)
Definition on_connection (now : Z) (id : string) (ua : option string)
    (s : State) : State * list Action :=
  let user := {| socketId := id; joinedAt := now; userAgent := ua |} in
  let s1 := {| waitingQueue := waitingQueue s;
               peers := peers s;
               userInfo := <[id := user]> (userInfo s);
               sockets := sockets s |} in
  let '(s2, out) := matchmaking now "MATCH_FOUND" "ADDED_TO_QUEUE" user s1 in
  (s2, logConnection now id "USER_CONNECTED" (DUserAgent ua) :: out).

(** [socket.on("signal")], with its try/catch. *)
Definition on_signal (now : Z) (id : string) (payload : JsValue)
    (s : State) : State * list Action :=
  match peer_of (peers s) id with
  | Some p =>
      if bool_decide (is_Some (sockets s !! p)) then
        match get_type payload with
        | inl ty =>
            (s, [ logConnection now id "SIGNAL_RELAY" (DRelay p ty);
                  Emit p (SignalMsg payload) ])
        | inr message =>
            (s, [ logConnection now id "SIGNAL_ERROR" (DError message) ])
        end
      else
        (s, [ logConnection now id "SIGNAL_ERROR" (DError "No active peer");
              Emit id (ErrorEvent "No active peer connection") ])
  | None =>
      (s, [ logConnection now id "SIGNAL_ERROR" (DError "No active peer");
            Emit id (ErrorEvent "No active peer connection") ])
  end.

(** The first block of the find-next handler: the current pairing, if
    any, is torn down and the partner told. *)
Definition unpair (id : string) (s : State) : State * list Action :=
  match peer_of (peers s) id with
  | Some currentPeer =>
      ({| waitingQueue := waitingQueue s;
          peers := delete id (delete currentPeer (peers s));
          userInfo := userInfo s;
          sockets := sockets s |},
       [ Emit currentPeer PeerDisconnected ])
  | None => (s, [])
  end.

(** [socket.on("find-next")]; [user] is the object captured by the
    closure, with [socket.id = socketId user]. *)
Definition on_find_next (now : Z) (user : User) (s : State) : State * list Action :=
  let id := socketId user in
  let '(s1, out1) := unpair id s in
  let '(s2, out2) := matchmaking now "NEW_MATCH_FOUND" "ADDED_TO_QUEUE_AGAIN" user s1 in
  (s2, logConnection now id "FIND_NEXT_REQUESTED" DNone :: (out1 ++ out2)%list).

(** [socket.on("disconnect")]. *)
Definition on_disconnect (now : Z) (id : string) (reason : string)
    (s : State) : State * list Action :=
  let out :=
    match peer_of (peers s) id with
    | Some p =>
        if bool_decide (is_Some (sockets s !! p))
        then [ Emit p PeerDisconnected ] else []
    | None => []
    end in
  (cleanupUser id s,
   logConnection now id "USER_DISCONNECTED" (DReason reason) :: out).

(** [socket.on("error")]. *)
Definition on_error (now : Z) (id : string) (message : string)
    (s : State) : State * list Action :=
  (s, [ logConnection now id "SOCKET_ERROR" (DError message) ]).

(** ** Periodic sweep *)

Definition timeout : Z := 5 * 60 * 1000.

Definition sweep_period : Z := 60000.

Definition isExpired (now : Z) (user : User) : bool :=
  (timeout <? now - joinedAt user)%Z.

(** The callback of [setInterval]: the filter keeps the entries that are
    not expired and logs the others as it meets them. *)
Definition sweep (now : Z) (s : State) : State * list Action :=
  ({| waitingQueue := List.filter (fun user => negb (isExpired now user)) (waitingQueue s);
      peers := peers s;
      userInfo := userInfo s;
      sockets := sockets s |},
   List.map (fun user => logConnection now (socketId user) "QUEUE_TIMEOUT" DNone)
            (List.filter (isExpired now) (waitingQueue s))).

(** ** The server as a transition system *)

Inductive Event : Type :=
  | Connect (id : string) (ua : option string)
  | Signal (id : string) (payload : JsValue)
  | FindNext (id : string)
  | Disconnect (id : string) (reason : string)
  | SocketError (id : string) (message : string)
  | Sweep.

Definition with_sockets (m : gmap string User) (s : State) : State :=
  {| waitingQueue := waitingQueue s; peers := peers s;
     userInfo := userInfo s; sockets := m |}.

(** One event at clock reading [now].  The transport delivers a
    connection only for a fresh, non-empty socket id and adds the socket to
    its table before the handler runs; it delivers the other socket events
    only for connected sockets, and has removed the socket from its table
    when the disconnect handler runs.  [None] is an event the transport
    cannot deliver. *)
Definition step (s : State) (now : Z) (e : Event) : option (State * list Action) :=
  match e with
  | Connect id ua =>
      match sockets s !! id with
      | Some _ => None
      | None =>
          if truthy id then
            let user := {| socketId := id; joinedAt := now; userAgent := ua |} in
            Some (on_connection now id ua (with_sockets (<[id := user]> (sockets s)) s))
          else None
      end
  | Signal id payload =>
      match sockets s !! id with
      | Some _ => Some (on_signal now id payload s)
      | None => None
      end
  | FindNext id =>
      match sockets s !! id with
      | Some user => Some (on_find_next now user s)
      | None => None
      end
  | Disconnect id reason =>
      match sockets s !! id with
      | Some _ => Some (on_disconnect now id reason (with_sockets (delete id (sockets s)) s))
      | None => None
      end
  | SocketError id message =>
      match sockets s !! id with
      | Some _ => Some (on_error now id message s)
      | None => None
      end
  | Sweep => Some (sweep now s)
  end.

(** A run from a state: the final state and everything logged and emitted
    on the way. *)
Fixpoint run (s : State) (evs : list (Z * Event)) : option (State * list Action) :=
  match evs with
  | [] => Some (s, [])
  | (now, e) :: rest =>
      match step s now e with
      | Some (s', out) =>
          match run s' rest with
          | Some (s'', out') => Some (s'', (out ++ out')%list)
          | None => None
          end
      | None => None
      end
  end.

Inductive reachable : State -> Prop :=
  | reachable_initial : reachable initial
  | reachable_step s now e s' out :
      reachable s -> step s now e = Some (s', out) -> reachable s'.

(** ** The health endpoint *)

(** The body of [app.get("/health")]: the constant status, the clock
    reading, and the three counts; [activePairs] is [peers.size / 2], a
    number that need not be whole. *)
Record Health : Type := mkHealth {
  status : string;
  timestamp : Z;
  activeConnections : nat;
  waitingQueueLength : nat;
  activePairs : Q
}.

Definition health (now : Z) (s : State) : Health :=
  {| status := "healthy";
     timestamp := now;
     activeConnections := size (sockets s);
     waitingQueueLength := length (waitingQueue s);
     activePairs := Qmake (Z.of_nat (size (peers s))) 2 |}.

(** ** Choice of the HTTP or HTTPS server *)

(** What the file system holds at a path: nothing, a file that can be
    read, or something whose read throws (with [error.message]). *)
Inductive FileEntry : Type :=
  | Missing
  | Readable (content : string)
  | Unreadable (message : string).

Definition existsSync (fs : string → FileEntry) (path : string) : bool :=
  match fs path with
  | Missing => false
  | _ => true
  end.

Definition readFileSync (fs : string → FileEntry) (path : string) : string + string :=
  match fs path with
  | Readable content => inl content
  | Unreadable message => inr message
  | Missing => inr "ENOENT: no such file or directory"
  end.

Definition certPaths : list (string * string) :=
  [ ("localhost+2-key.pem", "localhost+2.pem");
    ("private-key.pem", "certificate.pem");
    ("server-key.pem", "server-cert.pem") ].

(** The [for] loop over [certPaths]: it stops at the first pair whose two
    files exist and reads them; a read that throws leaves the loop. *)
Inductive CertSearch : Type :=
  | NotFound
  | Loaded (keyPath certPath key cert : string)
  | ReadFailed (message : string).

Fixpoint search_certificates (fs : string → FileEntry) (paths : list (string * string))
  : CertSearch :=
  match paths with
  | [] => NotFound
  | (keyPath, certPath) :: rest =>
      if existsSync fs keyPath && existsSync fs certPath then
        match readFileSync fs keyPath with
        | inr message => ReadFailed message
        | inl key =>
            match readFileSync fs certPath with
            | inr message => ReadFailed message
            | inl cert => Loaded keyPath certPath key cert
            end
        end
      else search_certificates fs rest
  end.

(** [process.env.USE_HTTPS === 'true' && process.env.NODE_ENV !== 'production'] *)
Definition useHTTPS (USE_HTTPS NODE_ENV : option string) : bool :=
  bool_decide (USE_HTTPS = Some "true") && negb (bool_decide (NODE_ENV = Some "production")).

Inductive ServerKind : Type :=
  | HttpServer
  | HttpsServer (key cert : string).

Inductive StartupLog : Type :=
  | CertificatesLoaded (keyPath certPath : string)
  | NoCertificates
  | LoadError (message : string)
  | FallingBack.

(** The block that assigns [server].  [createServer_throws key cert] is
    the message of the error [https.createServer] throws on this key and
    certificate, if it throws. *)
Definition create_server (USE_HTTPS NODE_ENV : option string) (fs : string → FileEntry)
    (createServer_throws : string → string → option string)
  : ServerKind * list StartupLog :=
  if useHTTPS USE_HTTPS NODE_ENV then
    match search_certificates fs certPaths with
    | Loaded keyPath certPath key cert =>
        match createServer_throws key cert with
        | None => (HttpsServer key cert, [ CertificatesLoaded keyPath certPath ])
        | Some message =>
            (HttpServer,
             [ CertificatesLoaded keyPath certPath; LoadError message; FallingBack ])
        end
    | NotFound => (HttpServer, [ NoCertificates ])
    | ReadFailed message => (HttpServer, [ LoadError message; FallingBack ])
    end
  else (HttpServer, []).

(** ** The client's server address *)

(** [\d]: the ten ASCII digits. *)
Definition is_digit (c : ascii) : bool :=
  (48 <=? nat_of_ascii c)%nat && (nat_of_ascii c <=? 57)%nat.

Fixpoint skip_digits (s : string) : string :=
  match s with
  | String c rest => if is_digit c then skip_digits rest else s
  | EmptyString => EmptyString
  end.

(** [\d+] at the head of [s]: what follows the digits, if there is at
    least one. *)
Definition digits (s : string) : option string :=
  match s with
  | String c rest => if is_digit c then Some (skip_digits rest) else None
  | EmptyString => None
  end.

(** [\.] at the head of [s]. *)
Definition dot (s : string) : option string :=
  match s with
  | String c rest => if Ascii.eqb c "."%char then Some rest else None
  | EmptyString => None
  end.

(** [hostname.match(/^\d+\.\d+\.\d+\.\d+$/)] as a boolean. *)
Definition matches_dotted_quad (hostname : string) : bool :=
  match (((((digits hostname ≫= dot) ≫= digits) ≫= dot) ≫= digits) ≫= dot) ≫= digits with
  | Some EmptyString => true
  | _ => false
  end.

(** [window.location], when there is a window. *)
Record Location : Type := mkLocation {
  hostname : string;
  protocol : string
}.

Definition is_loopback (h : string) : bool :=
  String.eqb h "localhost" || String.eqb h "127.0.0.1".

Definition fallback_url : string := "https://192.168.1.106:8080".

(** [getServerUrl] of the component with the health panel.  [env] is
    [process.env.NEXT_PUBLIC_SERVER_URL]; the empty string is falsy. *)
Definition getServerUrl (env : option string) (window : option Location) : string :=
  match env with
  | Some (String c url) => String c url
  | _ =>
      match window with
      | Some location =>
          let protocol :=
            if String.eqb (protocol location) "https:" then "https" else "http" in
          if is_loopback (hostname location) then
            String.append protocol
              (String.append "://" (String.append (hostname location) ":8080"))
          else if matches_dotted_quad (hostname location) then
            String.append "https://" (String.append (hostname location) ":8080")
          else fallback_url
      | None => fallback_url
      end
  end.

(** [getServerUrl] of [src/components/VideoChat.tsx]. *)
Definition getServerUrl_plain (env : option string) (window : option Location) : string :=
  match env with
  | Some (String c url) => String c url
  | _ =>
      match window with
      | Some location =>
          if is_loopback (hostname location) then
            String.append "https://" (String.append (hostname location) ":8080")
          else if matches_dotted_quad (hostname location) then
            String.append "https://" (String.append (hostname location) ":8080")
          else fallback_url
      | None => fallback_url
      end
  end.

(** ** Vocabulary of the properties *)

Definition symmetric (m : gmap string string) : Prop :=
  ∀ a b, m !! a = Some b → m !! b = Some a.

(** Number of queue entries of one connection. *)
Definition queue_count (id : string) (q : list User) : nat :=
  length (List.filter (fun user => String.eqb (socketId user) id) q).

Record Inv (s : State) : Prop := {
  inv_queue_short : length (waitingQueue s) ≤ 1;
  inv_queue_live : ∀ u, In u (waitingQueue s) → sockets s !! socketId u = Some u;
  inv_queue_unpaired : ∀ u, In u (waitingQueue s) → peers s !! socketId u = None;
  inv_peers_sym : symmetric (peers s);
  inv_peers_live : ∀ a b, peers s !! a = Some b → is_Some (sockets s !! a);
  inv_sockets : ∀ id u, sockets s !! id = Some u → socketId u = id ∧ truthy id = true;
  inv_userInfo : userInfo s = sockets s
}.

(** The state in which the connection handler runs its matchmaking block:
    the socket is in the transport's table and in [userInfo]. *)
Definition registered (now : Z) (id : string) (ua : option string) (s : State) : State :=
  let user := {| socketId := id; joinedAt := now; userAgent := ua |} in
  {| waitingQueue := waitingQueue s;
     peers := peers s;
     userInfo := <[id := user]> (userInfo s);
     sockets := <[id := user]> (sockets s) |}.

(** The emits of a handler run, in order, without the console lines. *)
Definition emits (out : list Action) : list (string * ServerEvent) :=
  flat_map (fun a => match a with Emit to ev => [(to, ev)] | Log _ _ _ _ => [] end) out.

(** The spec's [partnerOf] is [peers.get]. *)
Definition partnerOf (s : State) (id : string) : option string := peers s !! id.

(** The state a run from the initial state ends in. *)
Definition state_after (evs : list (Z * Event)) : State :=
  match run initial evs with
  | Some (s, _) => s
  | None => initial
  end.

Definition output_of (evs : list (Z * Event)) : list Action :=
  match run initial evs with
  | Some (_, out) => out
  | None => []
  end.

Inductive ConnState : Type := NotPresent | Queued | Paired.

(** A connection identifier is QUEUED when the queue has an entry for it,
    PAIRED when the pairing table has one, and not present when neither
    structure has. *)
Definition in_state (s : State) (id : string) (c : ConnState) : Prop :=
  match c with
  | NotPresent => queue_count id (waitingQueue s) = 0 ∧ peers s !! id = None
  | Queued => 1 ≤ queue_count id (waitingQueue s)
  | Paired => is_Some (peers s !! id)
  end.

(** The old partner's notice sent by find-next. *)
Definition unpair_notice (s : State) (id : string) : list (string * ServerEvent) :=
  match peer_of (peers s) id with
  | Some p => [(p, PeerDisconnected)]
  | None => []
  end.

(** [n] successive calls of [findMatch] (whose argument is not used): the
    identifiers returned, in order, and the queue that is left. *)
Fixpoint matches (n : nat) (q : list User) : list (option string) * list User :=
  match n with
  | O => ([], q)
  | S n' =>
      let '(r, q1) := findMatch EmptyString q in
      let '(rs, q2) := matches n' q1 in
      (r :: rs, q2)
  end.

(** The queue after the [enqueue] branch ran for each of [ws] in turn. *)
Definition enqueue_all (now : Z) (ws : list User) (s : State) : State :=
  fold_left (fun s w => (enqueue now "ADDED_TO_QUEUE" w (waitingQueue s) s).1) ws s.







(** The guard the specification asks of [enqueue]: a connection that has
    a queue entry is not given a second one. *)
Definition enqueue_guarded (now : Z) (ev : string) (u : User) (q : list User)
    (s : State) : Prop :=
  1 ≤ queue_count (socketId u) q →
  waitingQueue (enqueue now ev u q s).1 = q.

(** What the matchmaking block sends for requester [id] on queue [q]. *)
Definition matchmaking_reply (id : string) (q : list User) : list (string * ServerEvent) :=
  match found (findMatch id q).1 with
  | Some p => [ (p, MatchFound id true); (id, MatchFound p false) ]
  | None => [ (id, WaitingForPeer) ]
  end.

(** The pairing table after the teardown of [id]'s pairing. *)
Definition without_pair (id : string) (m : gmap string string) : gmap string string :=
  match m !! id with
  | Some p => delete id (delete p m)
  | None => m
  end.

(** The pairing table after the matchmaking block ran for [id] on queue
    [q], at a state with the invariant. *)
Definition with_match (id : string) (q : list User) (m : gmap string string)
  : gmap string string :=
  match q with
  | w :: _ => <[socketId w := id]> (<[id := socketId w]> m)
  | [] => m
  end.

(** The socket an event comes from. *)
Definition event_socket (e : Event) : option string :=
  match e with
  | Connect id _ | Signal id _ | FindNext id | Disconnect id _ | SocketError id _ => Some id
  | Sweep => None
  end.

(** The sockets an event can concern: the socket it comes from, that
    socket's partner, and for connect and find-next the waiter at the head
    of the queue; for the sweep, the sockets whose entries are expired. *)
Definition partner_list (s : State) (id : string) : list string :=
  match peers s !! id with
  | Some p => [p]
  | None => []
  end.

Definition head_list (s : State) : list string :=
  match waitingQueue s with
  | w :: _ => [socketId w]
  | [] => []
  end.

Definition concerned (s : State) (now : Z) (e : Event) : list string :=
  match e with
  | Connect id _ => id :: head_list s
  | Signal id _ => id :: partner_list s id
  | FindNext id => (id :: partner_list s id ++ head_list s)%list
  | Disconnect id _ => id :: partner_list s id
  | SocketError id _ => [id]
  | Sweep => List.map socketId (List.filter (isExpired now) (waitingQueue s))
  end.

(** The events of a list that are addressed to [x]. *)
Definition sent_to (x : string) (l : list (string * ServerEvent)) : list ServerEvent :=
  List.map snd (List.filter (fun m => String.eqb (fst m) x) l).

Definition env_unset (env : option string) : Prop :=
  env = None ∨ env = Some EmptyString.

Fixpoint all_digits (s : string) : bool :=
  match s with
  | EmptyString => true
  | String c rest => is_digit c && all_digits rest
  end.

(** A non-empty run of digits. *)
Definition digit_group (s : string) : Prop :=
  s ≠ EmptyString ∧ all_digits s = true.

Definition starts_without_digit (s : string) : Prop :=
  match s with
  | String c _ => is_digit c = false
  | EmptyString => True
  end.

(** ** Example runs *)

Definition userA : User := {| socketId := "A"; joinedAt := 0; userAgent := None |}.


Definition userC : User := {| socketId := "C"; joinedAt := 2000; userAgent := None |}.

Definition offer : JsValue :=
  JObject (FCons "type" (JString "offer") (FCons "sdp" (JString "v=0") FNil)).

Definition demo_alone : list (Z * Event) := [ (0%Z, Connect "A" None) ].

Definition demo_pair : list (Z * Event) :=
  [ (0%Z, Connect "A" None); (1000%Z, Connect "B" None) ].

Definition demo_waiting : list (Z * Event) :=
  [ (0%Z, Connect "A" None); (1000%Z, Connect "B" None); (2000%Z, Connect "C" None) ].

Definition demo_three : list (Z * Event) :=
  [ (0%Z, Connect "A" None); (1000%Z, Connect "B" None); (2000%Z, Connect "C" None);
    (3000%Z, FindNext "A") ].

Definition demo_skip_alone : list (Z * Event) :=
  [ (0%Z, Connect "A" None); (5000%Z, FindNext "A") ].

Definition demo_requeue : list (Z * Event) :=
  [ (0%Z, Connect "A" None); (1000%Z, Connect "B" None); (400000%Z, FindNext "A") ].

(** ** Invariants of the reachable states *)

(** Closes a component of [Inv] that a handler left as it was. *)
Ltac unchanged HI :=
  first [ apply (inv_queue_short _ HI) | apply (inv_queue_live _ HI)
        | apply (inv_queue_unpaired _ HI) | apply (inv_peers_sym _ HI)
        | apply (inv_peers_live _ HI) | apply (inv_sockets _ HI)
        | apply (inv_userInfo _ HI) ].

Lemma symmetric_delete_pair (m : gmap string string) a b :
  symmetric m → m !! a = Some b → symmetric (delete a (delete b m)).
Proof.
  intros Hs Hab x y Hx.
  apply lookup_delete_Some in Hx as [Hax Hx].
  apply lookup_delete_Some in Hx as [Hbx Hx].
  pose proof (Hs _ _ Hx) as Hy. pose proof (Hs _ _ Hab) as Hba.
  rewrite !lookup_delete_Some. repeat split; [| |done].
  - intros <-. rewrite Hab in Hy. congruence.
  - intros <-. rewrite Hba in Hy. congruence.
Qed.

Lemma symmetric_insert_pair (m : gmap string string) a b :
  symmetric m → m !! a = None → m !! b = None →
  symmetric (<[b := a]> (<[a := b]> m)).
Proof.
  intros Hs Ha Hb x y Hx.
  destruct (decide (b = x)) as [->|Hbx].
  - rewrite lookup_insert_eq in Hx. injection Hx as <-.
    destruct (decide (x = a)) as [->|Hne].
    + by rewrite lookup_insert_eq.
    + by rewrite lookup_insert_ne, lookup_insert_eq.
  - rewrite lookup_insert_ne in Hx by done.
    destruct (decide (a = x)) as [->|Hax].
    + rewrite lookup_insert_eq in Hx. injection Hx as <-.
      by rewrite lookup_insert_eq.
    + rewrite lookup_insert_ne in Hx by done.
      pose proof (Hs _ _ Hx) as Hy.
      rewrite !lookup_insert_ne; [done| |]; intros ->; congruence.
Qed.

Lemma peer_of_Some (m : gmap string string) id p :
  peer_of m id = Some p → m !! id = Some p ∧ truthy p = true.
Proof.
  unfold peer_of. destruct (m !! id) as [p'|]; [|done].
  destruct (truthy p') eqn:Ht; [|done]. by intros [= <-].
Qed.

Lemma peer_of_inv s id : Inv s → peer_of (peers s) id = peers s !! id.
Proof.
  intros HI. unfold peer_of. destruct (peers s !! id) as [p|] eqn:Hp; [|done].
  apply (inv_peers_sym s HI) in Hp.
  destruct (inv_peers_live s HI _ _ Hp) as [u Hu].
  destruct (inv_sockets s HI _ _ Hu) as [_ ->]. done.
Qed.

Lemma Inv_initial : Inv initial.
Proof.
  split; simpl; try done. lia.
Qed.

Lemma live_insert (m : gmap string User) id user a :
  is_Some (m !! a) → is_Some (<[id := user]> m !! a).
Proof.
  intros H. destruct (decide (id = a)) as [->|Hne].
  - rewrite lookup_insert_eq. eauto.
  - by rewrite lookup_insert_ne.
Qed.

Lemma unpaired_of_not_live s id :
  Inv s → sockets s !! id = None → peers s !! id = None.
Proof.
  intros HI Hid. destruct (peers s !! id) as [b|] eqn:Hb; [|done].
  destruct (inv_peers_live s HI _ _ Hb) as [u Hu]. congruence.
Qed.

Lemma queued_truthy s w :
  Inv s → In w (waitingQueue s) → truthy (socketId w) = true.
Proof.
  intros HI Hw. pose proof (inv_queue_live s HI _ Hw) as Hl.
  by destruct (inv_sockets s HI _ _ Hl).
Qed.

Lemma Inv_registered s now id ua :
  Inv s → sockets s !! id = None → truthy id = true →
  Inv (registered now id ua s).
Proof.
  intros HI Hfresh Hid. split; simpl.
  - unchanged HI.
  - intros u Hu. pose proof (inv_queue_live s HI u Hu) as Hl.
    rewrite lookup_insert_ne; [done|]. intros ->. congruence.
  - unchanged HI.
  - unchanged HI.
  - intros a b Hab. apply live_insert. by eapply (inv_peers_live s HI).
  - intros i u Hu. apply lookup_insert_Some in Hu as [[<- <-]|[_ Hu]]; [done|].
    by apply (inv_sockets s HI).
  - by rewrite (inv_userInfo s HI).
Qed.

(** Tearing down the current pairing keeps the invariant. *)
Lemma Inv_unpair s id : Inv s → Inv (unpair id s).1.
Proof.
  intros HI. unfold unpair. rewrite (peer_of_inv s _ HI).
  destruct (peers s !! id) as [p|] eqn:Hp; [|done].
  split; simpl.
  - unchanged HI.
  - unchanged HI.
  - intros u Hu. rewrite !lookup_delete_None.
    right. right. by apply (inv_queue_unpaired s HI).
  - apply symmetric_delete_pair; [apply (inv_peers_sym s HI)|done].
  - intros a b Hab.
    apply lookup_delete_Some in Hab as [_ Hab].
    apply lookup_delete_Some in Hab as [_ Hab].
    by eapply (inv_peers_live s HI).
  - unchanged HI.
  - unchanged HI.
Qed.

Lemma unpair_unpaired s id : Inv s → peers (unpair id s).1 !! id = None.
Proof.
  intros HI. unfold unpair. rewrite (peer_of_inv s _ HI).
  destruct (peers s !! id) as [p|] eqn:Hp; [|done].
  apply lookup_delete_eq.
Qed.

Lemma unpair_sockets s id : sockets (unpair id s).1 = sockets s.
Proof. unfold unpair. by destruct (peer_of (peers s) id). Qed.

Lemma unpair_queue s id : waitingQueue (unpair id s).1 = waitingQueue s.
Proof. unfold unpair. by destruct (peer_of (peers s) id). Qed.

(** The matchmaking block run for a connected, unpaired socket. *)
Lemma Inv_matchmaking s now ev1 ev2 user :
  Inv s → sockets s !! socketId user = Some user →
  peers s !! socketId user = None →
  Inv (matchmaking now ev1 ev2 user s).1.
Proof.
  intros HI Hlive Hnp. unfold matchmaking.
  pose proof (inv_queue_short s HI) as Hlen.
  destruct (waitingQueue s) as [|w [|w' q]] eqn:Hq; simpl in *; [| |lia].
  - split; simpl.
    + lia.
    + by intros u [<-|[]].
    + by intros u [<-|[]].
    + unchanged HI.
    + unchanged HI.
    + unchanged HI.
    + unchanged HI.
  - assert (Hw : In w (waitingQueue s)) by (rewrite Hq; by left).
    rewrite (queued_truthy s w HI Hw).
    pose proof (inv_queue_unpaired s HI w Hw) as Hwp.
    split; simpl.
    + lia.
    + intros u [].
    + intros u [].
    + apply symmetric_insert_pair; [apply (inv_peers_sym s HI)|done|done].
    + intros a b Hab.
      apply lookup_insert_Some in Hab as [[<- _]|[_ Hab]].
      { rewrite (inv_queue_live s HI w Hw). eauto. }
      apply lookup_insert_Some in Hab as [[<- _]|[_ Hab]].
      { rewrite Hlive. eauto. }
      by eapply (inv_peers_live s HI).
    + unchanged HI.
    + unchanged HI.
Qed.

Lemma on_connection_state now id ua s :
  (on_connection now id ua s).1 =
  (matchmaking now "MATCH_FOUND" "ADDED_TO_QUEUE"
     {| socketId := id; joinedAt := now; userAgent := ua |}
     {| waitingQueue := waitingQueue s; peers := peers s;
        userInfo := <[id := {| socketId := id; joinedAt := now; userAgent := ua |}]> (userInfo s);
        sockets := sockets s |}).1.
Proof. unfold on_connection. by destruct (matchmaking _ _ _ _ _). Qed.

Lemma on_find_next_state now user s :
  (on_find_next now user s).1 =
  (matchmaking now "NEW_MATCH_FOUND" "ADDED_TO_QUEUE_AGAIN" user
     (unpair (socketId user) s).1).1.
Proof.
  unfold on_find_next. destruct (unpair _ s) as [s1 out1]. simpl.
  by destruct (matchmaking _ _ _ _ _).
Qed.

Lemma Inv_connect s now id ua :
  Inv s → sockets s !! id = None → truthy id = true →
  Inv (on_connection now id ua
         (with_sockets
            (<[id := {| socketId := id; joinedAt := now; userAgent := ua |}]> (sockets s)) s)).1.
Proof.
  intros HI Hfresh Hid. rewrite on_connection_state.
  apply (Inv_matchmaking (registered now id ua s)).
  - by apply Inv_registered.
  - simpl. by rewrite lookup_insert_eq.
  - simpl. by apply unpaired_of_not_live.
Qed.

Lemma Inv_find_next s now user :
  Inv s → sockets s !! socketId user = Some user →
  Inv (on_find_next now user s).1.
Proof.
  intros HI Hlive. rewrite on_find_next_state.
  apply Inv_matchmaking.
  - by apply Inv_unpair.
  - by rewrite unpair_sockets.
  - by apply unpair_unpaired.
Qed.

Lemma filter_short {A} (f : A → bool) (l : list A) :
  length l ≤ 1 → length (List.filter f l) ≤ 1.
Proof.
  destruct l as [|x [|y l]]; simpl; [lia| |lia].
  destruct (f x); simpl; lia.
Qed.

Lemma Inv_disconnect s now id reason :
  Inv s → is_Some (sockets s !! id) →
  Inv (on_disconnect now id reason (with_sockets (delete id (sockets s)) s)).1.
Proof.
  intros HI Hlive. unfold on_disconnect, cleanupUser, with_sockets; simpl.
  rewrite (peer_of_inv s _ HI).
  split; simpl.
  - apply filter_short, (inv_queue_short s HI).
  - intros u Hu. apply filter_In in Hu as [Hu Hne].
    apply negb_true_iff, String.eqb_neq in Hne.
    rewrite lookup_delete_ne by done. by apply (inv_queue_live s HI).
  - intros u Hu. apply filter_In in Hu as [Hu Hne].
    pose proof (inv_queue_unpaired s HI u Hu) as Hnp.
    destruct (peers s !! id) as [p|]; [|done].
    rewrite !lookup_delete_None. by right; right.
  - destruct (peers s !! id) as [p|] eqn:Hp.
    + apply symmetric_delete_pair; [apply (inv_peers_sym s HI)|done].
    + unchanged HI.
  - intros a b Hab.
    assert (a ≠ id ∧ peers s !! a = Some b) as [Hne Hab'].
    { destruct (peers s !! id) as [p|] eqn:Hp.
      - apply lookup_delete_Some in Hab as [Hne Hab].
        apply lookup_delete_Some in Hab as [_ Hab]. done.
      - split; [|done]. intros ->. congruence. }
    rewrite lookup_delete_ne by done. by eapply (inv_peers_live s HI).
  - intros i u Hu. apply lookup_delete_Some in Hu as [_ Hu].
    by apply (inv_sockets s HI).
  - by rewrite (inv_userInfo s HI).
Qed.

Lemma Inv_sweep s now : Inv s → Inv (sweep now s).1.
Proof.
  intros HI. split; simpl.
  - apply filter_short, (inv_queue_short s HI).
  - intros u Hu. apply filter_In in Hu as [Hu _]. by apply (inv_queue_live s HI).
  - intros u Hu. apply filter_In in Hu as [Hu _]. by apply (inv_queue_unpaired s HI).
  - unchanged HI.
  - unchanged HI.
  - unchanged HI.
  - unchanged HI.
Qed.

Lemma on_signal_state s now id payload : (on_signal now id payload s).1 = s.
Proof.
  unfold on_signal. destruct (peer_of (peers s) id); [|done].
  case_bool_decide; [|done]. by destruct (get_type payload).
Qed.

Lemma Inv_step s now e s' out :
  Inv s → step s now e = Some (s', out) → Inv s'.
Proof.
  intros HI Hstep.
  destruct e as [id ua|id payload|id|id reason|id message|]; simpl in Hstep.
  - destruct (sockets s !! id) eqn:Hs; [done|].
    destruct (truthy id) eqn:Ht; [|done].
    injection Hstep as Hstep.
    pose proof (Inv_connect s now id ua HI Hs Ht) as H.
    by rewrite Hstep in H.
  - destruct (sockets s !! id); [|done]. injection Hstep as Hstep.
    pose proof (on_signal_state s now id payload) as H. rewrite Hstep in H.
    simpl in H. by subst.
  - destruct (sockets s !! id) as [user|] eqn:Hs; [|done].
    injection Hstep as Hstep.
    destruct (inv_sockets s HI _ _ Hs) as [<- _].
    pose proof (Inv_find_next s now user HI Hs) as H. by rewrite Hstep in H.
  - destruct (sockets s !! id) eqn:Hs; [|done].
    pose proof (Inv_disconnect s now id reason HI) as H.
    injection Hstep as <- _. apply H. eauto.
  - destruct (sockets s !! id); [|done]. by injection Hstep as <- _.
  - injection Hstep as <- _. by apply (Inv_sweep s now).
Qed.

Lemma reachable_Inv s : reachable s → Inv s.
Proof.
  induction 1 as [|s now e s' out _ IH Hstep]; [apply Inv_initial|].
  by eapply Inv_step.
Qed.

Lemma run_reachable s evs s' out :
  reachable s → run s evs = Some (s', out) → reachable s'.
Proof.
  revert s s' out. induction evs as [|[now e] evs IH]; intros s s' out Hr Hrun.
  - by injection Hrun as <- _.
  - simpl in Hrun.
    destruct (step s now e) as [[s1 out1]|] eqn:Hstep; [|done].
    destruct (run s1 evs) as [[s2 out2]|] eqn:Hrest; [|done].
    injection Hrun as <- _.
    eapply IH; [|done]. by eapply reachable_step.
Qed.

(** ** Properties of the matchmaking core *)

Lemma queue_count_le id q : queue_count id q ≤ length q.
Proof. unfold queue_count. apply filter_length_le. Qed.

Lemma queue_count_pos id q :
  1 ≤ queue_count id q → ∃ u, In u q ∧ socketId u = id.
Proof.
  unfold queue_count. intros H.
  destruct (List.filter _ q) as [|u l] eqn:Hf; simpl in H; [lia|].
  assert (Hu : In u (List.filter (fun user => String.eqb (socketId user) id) q))
    by (rewrite Hf; by left).
  apply filter_In in Hu as [Hu Heq]. apply String.eqb_eq in Heq. eauto.
Qed.

Lemma queued_unpaired s id :
  Inv s → 1 ≤ queue_count id (waitingQueue s) → peers s !! id = None.
Proof.
  intros HI Hc. apply queue_count_pos in Hc as (u & Hu & <-).
  by apply (inv_queue_unpaired s HI).
Qed.

(** C1. After every sequence of events the transport can deliver
    (connect, find-next, disconnect, and also signal, socket error and
    sweep), every connection identifier is in exactly one of the states
    not present, QUEUED and PAIRED; it never has a queue entry and a
    pairing at once, and never more than one queue entry. *)
Theorem exactly_one_state (evs : list (Z * Event)) (s : State) (out : list Action)
    (Hrun : run initial evs = Some (s, out)) (id : string) :
  (∃ c, in_state s id c ∧ ∀ c', in_state s id c' → c' = c) ∧
  ¬ (1 ≤ queue_count id (waitingQueue s) ∧ is_Some (peers s !! id)) ∧
  queue_count id (waitingQueue s) ≤ 1.
Proof.
  assert (HI : Inv s).
  { apply reachable_Inv. eapply run_reachable; [apply reachable_initial|done]. }
  pose proof (queue_count_le id (waitingQueue s)) as Hle.
  pose proof (inv_queue_short s HI) as Hlen.
  assert (Hex : ¬ (1 ≤ queue_count id (waitingQueue s) ∧ is_Some (peers s !! id))).
  { intros [Hq [p Hp]]. rewrite (queued_unpaired s id HI Hq) in Hp. done. }
  split; [|split; [done|lia]].
  destruct (queue_count id (waitingQueue s)) as [|n] eqn:Hc.
  - destruct (peers s !! id) as [p|] eqn:Hp.
    + exists Paired. split; [simpl; rewrite Hp; eauto|].
      intros [] H; simpl in H; rewrite ?Hc, ?Hp in H; [by destruct H|lia|done].
    + exists NotPresent. split; [simpl; by rewrite Hc, Hp|].
      intros [] H; simpl in H; rewrite ?Hc, ?Hp in H; [done|lia|by destruct H].
  - exists Queued. split; [simpl; rewrite Hc; lia|].
    intros [] H; simpl in H; rewrite ?Hc in H; [by destruct H|done|].
    exfalso. apply Hex. split; [lia|done].
Qed.

Lemma exactly_one_state_witness :
  (∃ c, in_state (state_after demo_three) "A" c ∧
        ∀ c', in_state (state_after demo_three) "A" c' → c' = c) ∧
  ¬ (1 ≤ queue_count "A" (waitingQueue (state_after demo_three)) ∧
     is_Some (peers (state_after demo_three) !! "A")) ∧
  queue_count "A" (waitingQueue (state_after demo_three)) ≤ 1.
Proof.
  apply (exactly_one_state demo_three (state_after demo_three) (output_of demo_three)).
  vm_compute. reflexivity.
Defined.

(** C5. Pairing is symmetric at every reachable state: when
    [partnerOf a = b] then [partnerOf b = a], so that
    [partnerOf (partnerOf a) = a], and both members are connected; since
    this holds before and after every step, an entry of the pairing table
    is created, and removed, for both members in the same step. *)
Theorem pairing_symmetric (evs : list (Z * Event)) (s : State) (out : list Action)
    (Hrun : run initial evs = Some (s, out)) (a b : string) :
  (partnerOf s a = Some b →
     partnerOf s b = Some a ∧
     partnerOf s a ≫= partnerOf s = Some a ∧
     is_Some (sockets s !! a) ∧ is_Some (sockets s !! b)) ∧
  (∀ now e s' out',
     step s now e = Some (s', out') →
     (partnerOf s a = Some b ↔ partnerOf s b = Some a) ∧
     (partnerOf s' a = Some b ↔ partnerOf s' b = Some a)).
Proof.
  assert (Hr : reachable s).
  { eapply run_reachable; [apply reachable_initial|done]. }
  pose proof (reachable_Inv s Hr) as HI. unfold partnerOf. split.
  - intros Hab. pose proof (inv_peers_sym s HI _ _ Hab) as Hba.
    repeat split; [done| |by eapply (inv_peers_live s HI)..].
    rewrite Hab. simpl. done.
  - intros now e s' out' Hstep.
    assert (HI' : Inv s') by (eapply reachable_Inv, reachable_step; done).
    split; split; by apply inv_peers_sym.
Qed.

Lemma pairing_symmetric_witness :
  partnerOf (state_after demo_pair) "A" = Some "B" ∧
  partnerOf (state_after demo_pair) "B" = Some "A" ∧
  partnerOf (state_after demo_pair) "A" ≫= partnerOf (state_after demo_pair) = Some "A" ∧
  is_Some (sockets (state_after demo_pair) !! "A") ∧
  is_Some (sockets (state_after demo_pair) !! "B").
Proof.
  assert (Hab : partnerOf (state_after demo_pair) "A" = Some "B")
    by (vm_compute; reflexivity).
  split; [exact Hab|].
  apply (pairing_symmetric demo_pair (state_after demo_pair) (output_of demo_pair));
    [vm_compute; reflexivity|exact Hab].
Defined.

Lemma enqueue_all_queue now ws s :
  waitingQueue (enqueue_all now ws s) = (waitingQueue s ++ ws)%list.
Proof.
  revert s. induction ws as [|w ws IH]; intros s; simpl.
  - by rewrite app_nil_r.
  - unfold enqueue_all in *. simpl. rewrite IH. simpl. by rewrite <- app_assoc.
Qed.

Lemma matches_all q :
  matches (length q) q = (List.map (fun w => Some (socketId w)) q, []).
Proof.
  induction q as [|w q IH]; simpl; [done|]. by rewrite IH.
Qed.

(** C3. The queue is first in, first out: [findMatch] removes and returns
    the entry at the head, which is the earliest enqueued, and returns
    nothing on the empty queue; waiters enqueued in the order W1, W2, W3
    come out of the next three calls in that order, and so for any number
    of waiters. *)
Theorem findMatch_fifo :
  (∀ id, findMatch id [] = (None, [])) ∧
  (∀ id w q, findMatch id (w :: q) = (Some (socketId w), q)) ∧
  (∀ now w1 w2 w3,
     matches 3 (waitingQueue (enqueue_all now [w1; w2; w3] initial)) =
       ([Some (socketId w1); Some (socketId w2); Some (socketId w3)], [])) ∧
  (∀ now ws s,
     matches (length (waitingQueue s ++ ws)) (waitingQueue (enqueue_all now ws s)) =
       (List.map (fun w => Some (socketId w)) (waitingQueue s ++ ws), [])).
Proof.
  repeat split; try done.
  intros now ws s. rewrite enqueue_all_queue. apply matches_all.
Qed.

Lemma emits_app out1 out2 : emits (out1 ++ out2) = (emits out1 ++ emits out2)%list.
Proof. unfold emits. apply flat_map_app. Qed.

Lemma matchmaking_found now ev1 ev2 user s w q :
  waitingQueue s = w :: q → truthy (socketId w) = true →
  matchmaking now ev1 ev2 user s = pair_up now ev1 (socketId user) (socketId w) q s.
Proof. intros Hq Ht. unfold matchmaking. rewrite Hq. simpl. by rewrite Ht. Qed.

Lemma matchmaking_empty now ev1 ev2 user s :
  waitingQueue s = [] →
  matchmaking now ev1 ev2 user s = enqueue now ev2 user [] s.
Proof. intros Hq. unfold matchmaking. by rewrite Hq. Qed.

Lemma unpair_emits s id : emits (unpair id s).2 = unpair_notice s id.
Proof. unfold unpair, unpair_notice. by destruct (peer_of (peers s) id). Qed.

(** C4. Whenever the matchmaking block finds a waiter [w] at the head of
    the queue, on connect and on find-next alike, [w] is dequeued and is
    sent match-found with [isInitiator = true], and the requesting socket
    is sent match-found with [isInitiator = false]; these are the only
    match-found events of the handler run. *)
Theorem initiator_roles (now : Z) (s : State) (w : User) (q : list User)
    (Hq : waitingQueue s = w :: q) (Ht : truthy (socketId w) = true) :
  (∀ id ua,
     waitingQueue (on_connection now id ua s).1 = q ∧
     emits (on_connection now id ua s).2 =
       [ (socketId w, MatchFound id true); (id, MatchFound (socketId w) false) ]) ∧
  (∀ user,
     waitingQueue (on_find_next now user s).1 = q ∧
     emits (on_find_next now user s).2 =
       (unpair_notice s (socketId user) ++
        [ (socketId w, MatchFound (socketId user) true);
          (socketId user, MatchFound (socketId w) false) ])%list).
Proof.
  split.
  - intros id ua. unfold on_connection.
    erewrite matchmaking_found; [|exact Hq|exact Ht]. done.
  - intros user. unfold on_find_next.
    destruct (unpair (socketId user) s) as [s1 out1] eqn:Hu.
    assert (Hq1 : waitingQueue s1 = w :: q).
    { pose proof (unpair_queue s (socketId user)) as H. rewrite Hu in H.
      simpl in H. congruence. }
    erewrite matchmaking_found; [|exact Hq1|exact Ht]. simpl.
    split; [done|]. rewrite emits_app.
    pose proof (unpair_emits s (socketId user)) as H. rewrite Hu in H.
    simpl in H. by rewrite H.
Qed.

Lemma initiator_roles_witness :
  emits (on_connection 3000 "D" None (state_after demo_waiting)).2 =
    [ ("C", MatchFound "D" true); ("D", MatchFound "C" false) ] ∧
  emits (on_find_next 3000 userA (state_after demo_waiting)).2 =
    [ ("B", PeerDisconnected); ("C", MatchFound "A" true); ("A", MatchFound "C" false) ].
Proof.
  assert (Hq : waitingQueue (state_after demo_waiting) = [userC])
    by (vm_compute; reflexivity).
  destruct (initiator_roles 3000 (state_after demo_waiting) userC [] Hq eq_refl)
    as [Hc Hf].
  split.
  - exact (proj2 (Hc "D" None)).
  - exact (proj2 (Hf userA)).
Defined.

(** Without a waiter no match-found is sent: the requester is told to
    wait. *)
Lemma no_match_on_empty_queue now s :
  waitingQueue s = [] →
  (∀ id ua, emits (on_connection now id ua s).2 = [ (id, WaitingForPeer) ]) ∧
  (∀ user, emits (on_find_next now user s).2 =
     (unpair_notice s (socketId user) ++ [ (socketId user, WaitingForPeer) ])%list).
Proof.
  intros Hq. split.
  - intros id ua. unfold on_connection. by rewrite matchmaking_empty.
  - intros user. unfold on_find_next.
    destruct (unpair (socketId user) s) as [s1 out1] eqn:Hu.
    assert (Hq1 : waitingQueue s1 = []).
    { pose proof (unpair_queue s (socketId user)) as H. rewrite Hu in H.
      simpl in H. congruence. }
    rewrite matchmaking_empty by done. simpl. rewrite emits_app.
    pose proof (unpair_emits s (socketId user)) as H. rewrite Hu in H.
    simpl in H. by rewrite H.
Qed.

Lemma run_Inv evs s out : run initial evs = Some (s, out) → Inv s.
Proof.
  intros Hrun. apply reachable_Inv.
  eapply run_reachable; [apply reachable_initial|done].
Qed.

(** C10. When the only entry of the queue is the socket that sends
    find-next, [findMatch] hands that socket back: it is dequeued, recorded
    as its own partner, and sent two match-found events, one as initiator
    and one as non-initiator. *)
Theorem find_next_self_match (evs : list (Z * Event)) (s : State) (out0 : list Action)
    (Hrun : run initial evs = Some (s, out0))
    (w : User) (Hq : waitingQueue s = [w]) (now : Z) :
  ∃ s' out,
    step s now (FindNext (socketId w)) = Some (s', out) ∧
    waitingQueue s' = [] ∧
    partnerOf s' (socketId w) = Some (socketId w) ∧
    emits out = [ (socketId w, MatchFound (socketId w) true);
                  (socketId w, MatchFound (socketId w) false) ].
Proof.
  pose proof (run_Inv _ _ _ Hrun) as HI.
  assert (Hw : In w (waitingQueue s)) by (rewrite Hq; by left).
  pose proof (inv_queue_live s HI w Hw) as Hlive.
  pose proof (inv_queue_unpaired s HI w Hw) as Hnp.
  pose proof (queued_truthy s w HI Hw) as Ht.
  exists (on_find_next now w s).1, (on_find_next now w s).2. split.
  { simpl. rewrite Hlive. by destruct (on_find_next now w s). }
  unfold on_find_next, unpair. rewrite (peer_of_inv s _ HI), Hnp.
  erewrite matchmaking_found; [|exact Hq|exact Ht]. simpl.
  repeat split. unfold partnerOf. simpl. by rewrite lookup_insert_eq.
Qed.

Lemma find_next_self_match_witness :
  ∃ s' out,
    step (state_after demo_alone) 5000 (FindNext "A") = Some (s', out) ∧
    waitingQueue s' = [] ∧
    partnerOf s' "A" = Some "A" ∧
    emits out = [ ("A", MatchFound "A" true); ("A", MatchFound "A" false) ].
Proof.
  apply (find_next_self_match demo_alone (state_after demo_alone)
           (output_of demo_alone) eq_refl userA eq_refl 5000%Z).
Defined.

Lemma queue_count_removed id q :
  queue_count id (List.filter (fun user => negb (String.eqb (socketId user) id)) q) = 0.
Proof.
  unfold queue_count. induction q as [|u q IH]; simpl; [done|].
  destruct (String.eqb (socketId u) id) eqn:He; simpl; [done|].
  by rewrite He.
Qed.

Lemma queue_count_filter id (f : User → bool) q :
  queue_count id (List.filter f q) ≤ queue_count id q.
Proof.
  unfold queue_count. induction q as [|u q IH]; simpl; [done|].
  destruct (f u); simpl; destruct (String.eqb (socketId u) id); simpl; lia.
Qed.

Lemma paired_not_queued s id p :
  Inv s → peers s !! id = Some p → queue_count id (waitingQueue s) = 0.
Proof.
  intros HI Hp.
  destruct (queue_count id (waitingQueue s)) as [|n] eqn:Hc; [done|].
  rewrite (queued_unpaired s id HI) in Hp; [done|lia].
Qed.

(** X20. When the disconnect handler of a connected socket has run, the
    socket has no queue entry and no pairing.  A former partner that is
    another socket was sent exactly one peer-disconnected event and nothing
    else, is no longer paired, and has not been put into the queue; it
    stays connected.  Without a partner nothing is sent. *)
Theorem disconnect_cleanup (evs : list (Z * Event)) (s : State) (out0 : list Action)
    (Hrun : run initial evs = Some (s, out0))
    (id : string) (Hlive : is_Some (sockets s !! id)) (now : Z) (reason : string) :
  ∃ s' out,
    step s now (Disconnect id reason) = Some (s', out) ∧
    queue_count id (waitingQueue s') = 0 ∧
    partnerOf s' id = None ∧
    sockets s' !! id = None ∧
    (partnerOf s id = None → emits out = []) ∧
    (∀ p, partnerOf s id = Some p → p ≠ id →
       emits out = [ (p, PeerDisconnected) ] ∧
       partnerOf s' p = None ∧
       queue_count p (waitingQueue s') = 0 ∧
       is_Some (sockets s' !! p)).
Proof.
  pose proof (run_Inv _ _ _ Hrun) as HI. destruct Hlive as [u Hu].
  exists (on_disconnect now id reason (with_sockets (delete id (sockets s)) s)).1,
         (on_disconnect now id reason (with_sockets (delete id (sockets s)) s)).2.
  split.
  { simpl. rewrite Hu. reflexivity. }
  unfold partnerOf, cleanupUser, with_sockets. simpl.
  rewrite !(peer_of_inv s _ HI).
  split; [apply queue_count_removed|].
  split; [|split; [apply lookup_delete_eq|split]].
  - destruct (peers s !! id) as [p|] eqn:Hp; [|done]. apply lookup_delete_eq.
  - by intros ->.
  - intros p Hp Hne. rewrite Hp.
    pose proof (inv_peers_sym s HI _ _ Hp) as Hpi.
    pose proof (inv_peers_live s HI _ _ Hpi) as Hpl.
    rewrite lookup_delete_ne by done.
    rewrite bool_decide_eq_true_2 by done.
    repeat split; [| |done].
    + rewrite lookup_delete_ne by done. apply lookup_delete_eq.
    + pose proof (queue_count_filter p
        (fun user => negb (String.eqb (socketId user) id)) (waitingQueue s)) as Hle.
      rewrite (paired_not_queued s p id HI Hpi) in Hle. lia.
Qed.

(** A socket paired with itself is out of the transport's table when its
    disconnect handler runs: nothing is emitted, and the pairing goes. *)
Lemma disconnect_self_paired evs s out0 id now reason :
  run initial evs = Some (s, out0) → partnerOf s id = Some id →
  ∃ s' out,
    step s now (Disconnect id reason) = Some (s', out) ∧
    emits out = [] ∧ partnerOf s' id = None.
Proof.
  intros Hrun Hp. pose proof (run_Inv _ _ _ Hrun) as HI.
  destruct (inv_peers_live s HI _ _ Hp) as [u Hu].
  exists (on_disconnect now id reason (with_sockets (delete id (sockets s)) s)).1,
         (on_disconnect now id reason (with_sockets (delete id (sockets s)) s)).2.
  split; [simpl; by rewrite Hu|].
  unfold partnerOf in *. unfold cleanupUser, with_sockets. simpl.
  rewrite !(peer_of_inv s _ HI), Hp, lookup_delete_eq.
  rewrite bool_decide_eq_false_2 by (intros [? ?]; done).
  split; [done|]. apply lookup_delete_eq.
Qed.

Lemma disconnect_cleanup_witness :
  ∃ s' out,
    step (state_after demo_pair) 9000 (Disconnect "A" "transport close") = Some (s', out) ∧
    queue_count "A" (waitingQueue s') = 0 ∧
    partnerOf s' "A" = None ∧
    sockets s' !! "A" = None ∧
    emits out = [ ("B", PeerDisconnected) ] ∧
    partnerOf s' "B" = None ∧
    queue_count "B" (waitingQueue s') = 0 ∧
    is_Some (sockets s' !! "B").
Proof.
  destruct (disconnect_cleanup demo_pair (state_after demo_pair) (output_of demo_pair)
              eq_refl "A" (ex_intro _ userA eq_refl) 9000%Z "transport close")
    as (s' & out & Hstep & Hq & Hp & Hs & _ & Hpartner).
  exists s', out.
  destruct (Hpartner "B" eq_refl) as (He & Hpb & Hqb & Hlb).
  - intros H. discriminate H.
  - repeat split; assumption.
Defined.

(** C7 at the failing run.  A connects, is queued, and sends find-next, so
    that it is recorded as its own partner; then it disconnects.  The
    transport has taken A out of its table, the handler finds its partner
    not connected, and the whole output is the USER_DISCONNECTED log line:
    no peer-disconnected event is sent to the former partner. *)
Theorem disconnect_after_self_match_notifies_nobody :
  partnerOf (state_after demo_skip_alone) "A" = Some "A" ∧
  is_Some (sockets (state_after demo_skip_alone) !! "A") ∧
  (∃ s', step (state_after demo_skip_alone) 9000 (Disconnect "A" "transport close") =
           Some (s', [ Log 9000 "USER_DISCONNECTED" "A" (DReason "transport close") ]) ∧
         partnerOf s' "A" = None ∧
         queue_count "A" (waitingQueue s') = 0) ∧
  sent_to "A"
    (emits [ Log 9000 "USER_DISCONNECTED" "A" (DReason "transport close") ]) = [].
Proof.
  split; [vm_compute; reflexivity|].
  split; [exists userA; vm_compute; reflexivity|].
  split; [|reflexivity].
  exists (on_disconnect 9000 "A" "transport close"
            (with_sockets (delete "A" (sockets (state_after demo_skip_alone)))
               (state_after demo_skip_alone))).1.
  repeat split; vm_compute; reflexivity.
Qed.

(** ** The signaling relay *)




(** At the state in which A is recorded as its own partner, the relay
    sends A's payload to A itself. *)
Lemma signal_when_self_paired :
  partnerOf (state_after demo_skip_alone) "A" = Some "A" ∧
  emits (on_signal 6000 "A" offer (state_after demo_skip_alone)).2 =
    [ ("A", SignalMsg offer) ].
Proof. split; vm_compute; reflexivity. Qed.


(** ** The queue sweep *)

(** The sweep keeps exactly the entries whose recorded [joinedAt] is at
    most [timeout] (5 minutes, in milliseconds) before [now]. *)
Lemma sweep_keeps now s u :
  In u (waitingQueue (sweep now s).1) ↔
  In u (waitingQueue s) ∧ (now - joinedAt u ≤ timeout)%Z.
Proof.
  simpl. rewrite filter_In. unfold isExpired.
  rewrite negb_true_iff, Z.ltb_ge. done.
Qed.

Lemma sweep_logs now s :
  (sweep now s).2 =
  List.map (fun user => Log now "QUEUE_TIMEOUT" (socketId user) DNone)
           (List.filter (isExpired now) (waitingQueue s)).
Proof. done. Qed.

(** The scenario of the specification: with a waiter whose recorded time
    is 6 minutes old and one whose recorded time is 1 minute old, the sweep
    removes the first and keeps the second. *)
Lemma sweep_scenario peers0 info0 sockets0 ua1 ua2 :
  let old := {| socketId := "W1"; joinedAt := 0; userAgent := ua1 |} in
  let young := {| socketId := "W2"; joinedAt := 300000; userAgent := ua2 |} in
  waitingQueue
    (sweep 360000 {| waitingQueue := [old; young]; peers := peers0;
                     userInfo := info0; sockets := sockets0 |}).1 = [young].
Proof. done. Qed.

(** The entry enqueued by the connection handler records the clock reading
    of that handler run. *)
Lemma connect_entry_time now id ua s :
  waitingQueue s = [] →
  waitingQueue (on_connection now id ua s).1 =
    [ {| socketId := id; joinedAt := now; userAgent := ua |} ].
Proof. intros Hq. unfold on_connection. by rewrite matchmaking_empty. Qed.

(** The entry enqueued by find-next is the [user] object of the closure,
    whatever the clock reads: its [joinedAt] is the time of connection. *)
Lemma find_next_entry_time now user s :
  waitingQueue s = [] →
  waitingQueue (on_find_next now user s).1 = [ user ].
Proof.
  intros Hq. rewrite on_find_next_state.
  rewrite matchmaking_empty by (by rewrite unpair_queue). done.
Qed.

(** C8 at the failing run.  A connects at 0 and is matched with B at 1000;
    at 400000 A sends find-next, finds nobody and is enqueued again.  The
    entry carries [joinedAt = 0], not 400000, and the sweep at 420000
    removes it, 20 seconds after it was enqueued. *)
Theorem requeued_entry_swept_early :
  waitingQueue (state_after demo_requeue) = [ userA ] ∧
  joinedAt userA = 0%Z ∧
  In (Log 400000 "ADDED_TO_QUEUE_AGAIN" "A" (DQueuePosition 1)) (output_of demo_requeue) ∧
  (420000 - 400000 ≤ timeout)%Z ∧
  waitingQueue (sweep 420000 (state_after demo_requeue)).1 = [] ∧
  (sweep 420000 (state_after demo_requeue)).2 = [ Log 420000 "QUEUE_TIMEOUT" "A" DNone ].
Proof.
  split; [vm_compute; reflexivity|].
  split; [reflexivity|].
  split; [vm_compute; tauto|].
  split; [vm_compute; discriminate|].
  split; vm_compute; reflexivity.
Qed.

(** ** find-next while queued *)

(** C2 at the failing run.  A connects, is queued, and sends find-next:
    it ends with no queue entry and paired with itself, and was sent two
    match-found events. *)
Theorem find_next_while_queued_pairs_self :
  queue_count "A" (waitingQueue (state_after demo_alone)) = 1 ∧
  partnerOf (state_after demo_alone) "A" = None ∧
  queue_count "A" (waitingQueue (state_after demo_skip_alone)) = 0 ∧
  partnerOf (state_after demo_skip_alone) "A" = Some "A" ∧
  emits (output_of demo_skip_alone) =
    [ ("A", WaitingForPeer); ("A", MatchFound "A" true); ("A", MatchFound "A" false) ].
Proof. repeat split; vm_compute; reflexivity. Qed.

(** ** Enqueueing *)

(** The else-branch has no guard of its own: run on a queue that already
    holds A's entry (which the handlers never do) it appends a second one,
    logs the ordinary queue line and emits waiting-for-peer. *)
Lemma enqueue_appends_duplicate :
  ¬ enqueue_guarded 5000 "ADDED_TO_QUEUE_AGAIN" userA
      (waitingQueue (state_after demo_alone)) (state_after demo_alone) ∧
  waitingQueue (enqueue 5000 "ADDED_TO_QUEUE_AGAIN" userA
                  (waitingQueue (state_after demo_alone)) (state_after demo_alone)).1 =
    [ userA; userA ] ∧
  (enqueue 5000 "ADDED_TO_QUEUE_AGAIN" userA
     (waitingQueue (state_after demo_alone)) (state_after demo_alone)).2 =
    [ Log 5000 "ADDED_TO_QUEUE_AGAIN" "A" (DQueuePosition 2); Emit "A" WaitingForPeer ].
Proof.
  split; [|split; vm_compute; reflexivity].
  intros H. unfold enqueue_guarded in H.
  assert (Hc : 1 ≤ queue_count (socketId userA) (waitingQueue (state_after demo_alone)))
    by (vm_compute; lia).
  specialize (H Hc). vm_compute in H. discriminate H.
Qed.

Lemma matchmaking_queue now ev1 ev2 user s :
  waitingQueue (matchmaking now ev1 ev2 user s).1 =
  match waitingQueue s with
  | [] => [user]
  | w :: q => if truthy (socketId w) then q else (q ++ [user])%list
  end.
Proof.
  unfold matchmaking. destruct (waitingQueue s) as [|w q]; simpl; [done|].
  by destruct (truthy (socketId w)).
Qed.





(** ** What the handlers send, and where *)

Lemma matchmaking_emits now ev1 ev2 user s :
  emits (matchmaking now ev1 ev2 user s).2 =
  matchmaking_reply (socketId user) (waitingQueue s).
Proof.
  unfold matchmaking, matchmaking_reply.
  destruct (findMatch (socketId user) (waitingQueue s)) as [r q]. simpl.
  by destruct (found r).
Qed.

Lemma matchmaking_sockets now ev1 ev2 user s :
  sockets (matchmaking now ev1 ev2 user s).1 = sockets s.
Proof.
  unfold matchmaking.
  destruct (findMatch (socketId user) (waitingQueue s)) as [r q].
  by destruct (found r).
Qed.

Lemma matchmaking_userInfo now ev1 ev2 user s :
  userInfo (matchmaking now ev1 ev2 user s).1 = userInfo s.
Proof.
  unfold matchmaking.
  destruct (findMatch (socketId user) (waitingQueue s)) as [r q].
  by destruct (found r).
Qed.

Lemma matchmaking_peers now ev1 ev2 user s :
  peers (matchmaking now ev1 ev2 user s).1 =
  match found (findMatch (socketId user) (waitingQueue s)).1 with
  | Some p => <[p := socketId user]> (<[socketId user := p]> (peers s))
  | None => peers s
  end.
Proof.
  unfold matchmaking.
  destruct (findMatch (socketId user) (waitingQueue s)) as [r q]. simpl.
  by destruct (found r).
Qed.

Lemma on_connection_emits now id ua s :
  emits (on_connection now id ua s).2 = matchmaking_reply id (waitingQueue s).
Proof.
  unfold on_connection.
  pose proof (matchmaking_emits now "MATCH_FOUND" "ADDED_TO_QUEUE"
    {| socketId := id; joinedAt := now; userAgent := ua |}
    {| waitingQueue := waitingQueue s; peers := peers s;
       userInfo := <[id := {| socketId := id; joinedAt := now; userAgent := ua |}]> (userInfo s);
       sockets := sockets s |}) as H.
  destruct (matchmaking _ _ _ _ _) as [s2 out]. simpl in *. done.
Qed.

Lemma on_find_next_emits now user s :
  emits (on_find_next now user s).2 =
  (unpair_notice s (socketId user) ++
   matchmaking_reply (socketId user) (waitingQueue s))%list.
Proof.
  unfold on_find_next.
  pose proof (unpair_emits s (socketId user)) as Hu.
  pose proof (unpair_queue s (socketId user)) as Hq.
  destruct (unpair (socketId user) s) as [s1 out1]. simpl in *.
  pose proof (matchmaking_emits now "NEW_MATCH_FOUND" "ADDED_TO_QUEUE_AGAIN" user s1) as H.
  destruct (matchmaking _ _ _ _ _) as [s2 out2]. simpl in *.
  by rewrite emits_app, Hu, H, Hq.
Qed.

Lemma on_disconnect_emits now id reason s :
  emits (on_disconnect now id reason s).2 =
  match peer_of (peers s) id with
  | Some p => if bool_decide (is_Some (sockets s !! p)) then [ (p, PeerDisconnected) ] else []
  | None => []
  end.
Proof.
  unfold on_disconnect. simpl. destruct (peer_of (peers s) id) as [p|]; [|done].
  by case_bool_decide.
Qed.

Lemma sweep_emits now s : emits (sweep now s).2 = [].
Proof.
  simpl. induction (List.filter (isExpired now) (waitingQueue s)) as [|u l IH]; done.
Qed.

(** The reply of the matchmaking block at a state with the invariant. *)
Lemma matchmaking_reply_inv s id :
  Inv s →
  matchmaking_reply id (waitingQueue s) =
  match waitingQueue s with
  | [] => [ (id, WaitingForPeer) ]
  | w :: _ => [ (socketId w, MatchFound id true); (id, MatchFound (socketId w) false) ]
  end.
Proof.
  intros HI. unfold matchmaking_reply.
  destruct (waitingQueue s) as [|w q] eqn:Hq; [done|]. simpl.
  assert (Hw : In w (waitingQueue s)) by (rewrite Hq; by left).
  by rewrite (queued_truthy s w HI Hw).
Qed.

(** ** Further properties of the server *)

(** X1. At most one socket waits at a time: after every run the waiting
    queue holds at most one entry, because both enqueue sites are reached
    only when [findMatch] found the queue empty. *)
Theorem queue_at_most_one (evs : list (Z * Event)) (s : State) (out : list Action)
    (Hrun : run initial evs = Some (s, out)) :
  length (waitingQueue s) ≤ 1.
Proof. apply inv_queue_short. by eapply run_Inv. Qed.

Lemma queue_at_most_one_witness : length (waitingQueue (state_after demo_three)) ≤ 1.
Proof.
  apply (queue_at_most_one demo_three (state_after demo_three) (output_of demo_three)).
  vm_compute. reflexivity.
Defined.

(** X2. [userInfo] follows the transport's table: after every run it has
    an entry exactly for the connected sockets, each the [user] object
    built when that socket connected, stored under its own [socketId].
    Queue entries are these same objects. *)
Theorem userInfo_tracks_sockets (evs : list (Z * Event)) (s : State) (out : list Action)
    (Hrun : run initial evs = Some (s, out)) :
  userInfo s = sockets s ∧
  (∀ id u, userInfo s !! id = Some u → socketId u = id) ∧
  (∀ u, In u (waitingQueue s) → userInfo s !! socketId u = Some u).
Proof.
  pose proof (run_Inv _ _ _ Hrun) as HI.
  rewrite (inv_userInfo s HI). split; [done|]. split.
  - intros id u Hu. by destruct (inv_sockets s HI _ _ Hu).
  - apply (inv_queue_live s HI).
Qed.

Lemma userInfo_tracks_sockets_witness :
  userInfo (state_after demo_three) = sockets (state_after demo_three) ∧
  userInfo (state_after demo_three) !! "C" = Some userC.
Proof.
  destruct (userInfo_tracks_sockets demo_three (state_after demo_three)
              (output_of demo_three) eq_refl) as (H1 & _ & _).
  split; [exact H1|]. vm_compute. reflexivity.
Defined.

Lemma paired_and_queued_sizes s :
  Inv s → size (peers s) + length (waitingQueue s) ≤ size (sockets s).
Proof.
  intros HI.
  assert (Hsub : dom (peers s) ⊆ dom (sockets s)).
  { intros a Ha. apply elem_of_dom in Ha as [b Hab]. apply elem_of_dom.
    by eapply (inv_peers_live s HI). }
  rewrite <- (size_dom (peers s)), <- (size_dom (sockets s)).
  pose proof (inv_queue_short s HI) as Hlen.
  destruct (waitingQueue s) as [|w [|w' q]] eqn:Hq; simpl in *; [| |lia].
  - apply subseteq_size in Hsub. lia.
  - assert (Hw : In w (waitingQueue s)) by (rewrite Hq; by left).
    assert (Hdisj : dom (peers s) ## ({[ socketId w ]} : gset string)).
    { apply disjoint_singleton_r. rewrite not_elem_of_dom.
      by apply (inv_queue_unpaired s HI). }
    assert (Hsub' : dom (peers s) ∪ {[ socketId w ]} ⊆ dom (sockets s)).
    { apply union_subseteq. split; [done|]. apply singleton_subseteq_l.
      apply elem_of_dom. rewrite (inv_queue_live s HI w Hw). eauto. }
    apply subseteq_size in Hsub'.
    rewrite size_union, size_singleton in Hsub' by done. lia.
Qed.

(** X3. The counts of the health endpoint are consistent after every run:
    the queue count is at most 1, and paired and waiting sockets are
    distinct connected sockets, so that
    [2 * activePairs + waitingQueue <= activeConnections]. *)
Theorem health_counts (evs : list (Z * Event)) (s : State) (out : list Action)
    (Hrun : run initial evs = Some (s, out)) (now : Z) :
  waitingQueueLength (health now s) ≤ 1 ∧
  (2 * activePairs (health now s) + inject_Z (Z.of_nat (waitingQueueLength (health now s)))
   <= inject_Z (Z.of_nat (activeConnections (health now s))))%Q.
Proof.
  pose proof (run_Inv _ _ _ Hrun) as HI.
  split; [apply (inv_queue_short s HI)|].
  pose proof (paired_and_queued_sizes s HI) as H.
  unfold health, Qle. simpl. lia.
Qed.

Lemma health_counts_witness :
  waitingQueueLength (health 5000 (state_after demo_three)) ≤ 1 ∧
  (2 * activePairs (health 5000 (state_after demo_three)) +
   inject_Z (Z.of_nat (waitingQueueLength (health 5000 (state_after demo_three))))
   <= inject_Z (Z.of_nat (activeConnections (health 5000 (state_after demo_three)))))%Q.
Proof.
  apply (health_counts demo_three (state_after demo_three) (output_of demo_three)).
  vm_compute. reflexivity.
Defined.

Lemma step_sockets s now e s' out :
  step s now e = Some (s', out) →
  sockets s' =
  match e with
  | Connect id ua =>
      <[id := {| socketId := id; joinedAt := now; userAgent := ua |}]> (sockets s)
  | Disconnect id _ => delete id (sockets s)
  | _ => sockets s
  end.
Proof.
  intros Hstep.
  destruct e as [id ua|id payload|id|id reason|id message|]; simpl in Hstep.
  - destruct (sockets s !! id); [done|]. destruct (truthy id); [|done].
    injection Hstep as Hstep. apply (f_equal fst) in Hstep. simpl in Hstep.
    subst s'. by rewrite on_connection_state, matchmaking_sockets.
  - destruct (sockets s !! id); [|done]. injection Hstep as Hstep.
    apply (f_equal fst) in Hstep. rewrite on_signal_state in Hstep. by subst.
  - destruct (sockets s !! id) as [user|]; [|done]. injection Hstep as Hstep.
    apply (f_equal fst) in Hstep. simpl in Hstep. subst s'.
    by rewrite on_find_next_state, matchmaking_sockets, unpair_sockets.
  - destruct (sockets s !! id); [|done]. by injection Hstep as <- _.
  - destruct (sockets s !! id); [|done]. by injection Hstep as <- _.
  - by injection Hstep as <- _.
Qed.

Lemma step_emits s now e s' out :
  Inv s → step s now e = Some (s', out) →
  emits out =
  match e with
  | Connect id _ => matchmaking_reply id (waitingQueue s)
  | Signal id payload => emits (on_signal now id payload s).2
  | FindNext id => (unpair_notice s id ++ matchmaking_reply id (waitingQueue s))%list
  | Disconnect id _ =>
      match peers s !! id with
      | Some p => if bool_decide (p = id) then [] else [ (p, PeerDisconnected) ]
      | None => []
      end
  | SocketError _ _ => []
  | Sweep => []
  end.
Proof.
  intros HI Hstep.
  destruct e as [id ua|id payload|id|id reason|id message|]; simpl in Hstep.
  - destruct (sockets s !! id); [done|]. destruct (truthy id); [|done].
    injection Hstep as Hstep. apply (f_equal snd) in Hstep. simpl in Hstep.
    subst out. by rewrite on_connection_emits.
  - destruct (sockets s !! id); [|done]. injection Hstep as Hstep.
    apply (f_equal snd) in Hstep. simpl in Hstep. by subst out.
  - destruct (sockets s !! id) as [user|] eqn:Hs; [|done]. injection Hstep as Hstep.
    apply (f_equal snd) in Hstep. simpl in Hstep. subst out.
    destruct (inv_sockets s HI _ _ Hs) as [<- _]. apply on_find_next_emits.
  - destruct (sockets s !! id) eqn:Hs; [|done]. injection Hstep as _ <-.
    unfold with_sockets. simpl. rewrite (peer_of_inv s _ HI).
    destruct (peers s !! id) as [p|] eqn:Hp; [|done].
    destruct (decide (p = id)) as [->|Hpid].
    + rewrite lookup_delete_eq, (bool_decide_eq_true_2 (id = id)) by done.
      by rewrite bool_decide_eq_false_2 by (intros [? ?]; done).
    + rewrite lookup_delete_ne, (bool_decide_eq_false_2 (p = id)) by done.
      apply (inv_peers_sym s HI) in Hp.
      by rewrite bool_decide_eq_true_2 by (by eapply (inv_peers_live s HI)).
  - destruct (sockets s !! id); [|done]. by injection Hstep as _ <-.
  - injection Hstep as _ <-. apply sweep_emits.
Qed.

Lemma step_peers s now e s' out :
  Inv s → step s now e = Some (s', out) →
  peers s' =
  match e with
  | Connect id _ => with_match id (waitingQueue s) (peers s)
  | FindNext id => with_match id (waitingQueue s) (without_pair id (peers s))
  | Disconnect id _ => without_pair id (peers s)
  | _ => peers s
  end.
Proof.
  intros HI Hstep.
  assert (Hfound : ∀ id, found (findMatch id (waitingQueue s)).1 =
                         match waitingQueue s with
                         | [] => None
                         | w :: _ => Some (socketId w)
                         end).
  { intros id. destruct (waitingQueue s) as [|w q] eqn:Hq; [done|]. simpl.
    assert (Hw : In w (waitingQueue s)) by (rewrite Hq; by left).
    by rewrite (queued_truthy s w HI Hw). }
  destruct e as [id ua|id payload|id|id reason|id message|]; simpl in Hstep.
  - destruct (sockets s !! id); [done|]. destruct (truthy id); [|done].
    injection Hstep as Hstep. apply (f_equal fst) in Hstep. simpl in Hstep.
    subst s'. rewrite on_connection_state, matchmaking_peers. simpl.
    rewrite Hfound. unfold with_match. by destruct (waitingQueue s).
  - destruct (sockets s !! id); [|done]. injection Hstep as Hstep.
    apply (f_equal fst) in Hstep. rewrite on_signal_state in Hstep. by subst.
  - destruct (sockets s !! id) as [user|] eqn:Hs; [|done]. injection Hstep as Hstep.
    apply (f_equal fst) in Hstep. simpl in Hstep. subst s'.
    destruct (inv_sockets s HI _ _ Hs) as [<- _].
    rewrite on_find_next_state, matchmaking_peers, unpair_queue, Hfound.
    assert (Hu : peers (unpair (socketId user) s).1 = without_pair (socketId user) (peers s)).
    { unfold unpair, without_pair. rewrite (peer_of_inv s _ HI).
      by destruct (peers s !! socketId user). }
    rewrite Hu. unfold with_match. by destruct (waitingQueue s).
  - destruct (sockets s !! id); [|done]. injection Hstep as <- _.
    unfold with_sockets, without_pair. simpl. rewrite (peer_of_inv s _ HI).
    by destruct (peers s !! id).
  - destruct (sockets s !! id); [|done]. by injection Hstep as <- _.
  - by injection Hstep as <- _.
Qed.

Lemma step_queue s now e s' out :
  Inv s → step s now e = Some (s', out) →
  waitingQueue s' =
  match e with
  | Connect id ua =>
      match waitingQueue s with
      | [] => [ {| socketId := id; joinedAt := now; userAgent := ua |} ]
      | _ :: q => q
      end
  | FindNext id =>
      match waitingQueue s with
      | [] => match sockets s !! id with Some user => [user] | None => [] end
      | _ :: q => q
      end
  | Disconnect id _ =>
      List.filter (fun user => negb (String.eqb (socketId user) id)) (waitingQueue s)
  | Sweep => List.filter (fun user => negb (isExpired now user)) (waitingQueue s)
  | _ => waitingQueue s
  end.
Proof.
  intros HI Hstep.
  assert (Hhead : ∀ w q, waitingQueue s = w :: q → truthy (socketId w) = true).
  { intros w q Hq. apply (queued_truthy s w HI). rewrite Hq. by left. }
  destruct e as [id ua|id payload|id|id reason|id message|]; simpl in Hstep.
  - destruct (sockets s !! id); [done|]. destruct (truthy id); [|done].
    injection Hstep as Hstep. apply (f_equal fst) in Hstep. simpl in Hstep.
    subst s'. rewrite on_connection_state, matchmaking_queue. simpl.
    destruct (waitingQueue s) as [|w q] eqn:Hq; [done|]. by rewrite (Hhead w q).
  - destruct (sockets s !! id); [|done]. injection Hstep as Hstep.
    apply (f_equal fst) in Hstep. rewrite on_signal_state in Hstep. by subst.
  - destruct (sockets s !! id) as [user|] eqn:Hs; [|done]. injection Hstep as Hstep.
    apply (f_equal fst) in Hstep. simpl in Hstep. subst s'.
    rewrite on_find_next_state, matchmaking_queue, unpair_queue.
    destruct (waitingQueue s) as [|w q] eqn:Hq; [done|]. by rewrite (Hhead w q).
  - destruct (sockets s !! id); [|done]. by injection Hstep as <- _.
  - destruct (sockets s !! id); [|done]. by injection Hstep as <- _.
  - by injection Hstep as <- _.
Qed.

Lemma step_socket_known s now e s' out id :
  step s now e = Some (s', out) → event_socket e = Some id →
  match e with
  | Connect _ _ => sockets s !! id = None ∧ truthy id = true
  | _ => is_Some (sockets s !! id)
  end.
Proof.
  intros Hstep He.
  destruct e as [i ua|i payload|i|i reason|i message|]; simpl in *;
    try (injection He as ->); try done;
    destruct (sockets s !! id) eqn:Hs; try done; eauto.
  by destruct (truthy id).
Qed.

Lemma on_signal_emits_cases now id payload s x ev :
  In (x, ev) (emits (on_signal now id payload s).2) →
  (x = id ∧ ev = ErrorEvent "No active peer connection") ∨
  (peer_of (peers s) id = Some x ∧ is_Some (sockets s !! x) ∧ ev = SignalMsg payload).
Proof.
  unfold on_signal. destruct (peer_of (peers s) id) as [p|] eqn:Hp.
  - case_bool_decide as Hl.
    + destruct (get_type payload); simpl; [|done].
      intros [[= <- <-]|[]]. by right.
    + simpl. intros [[= <- <-]|[]]. by left.
  - simpl. intros [[= <- <-]|[]]. by left.
Qed.

(** X4. The server never addresses an event to a socket that is not
    connected: from every reachable state, each emit of a step (of any
    handler, or of the sweep) goes to a socket that is in the transport's
    table after the step. *)
Theorem emits_reach_connected_sockets (evs : list (Z * Event)) (s : State)
    (out0 : list Action) (Hrun : run initial evs = Some (s, out0))
    (now : Z) (e : Event) (s' : State) (out : list Action)
    (Hstep : step s now e = Some (s', out))
    (x : string) (ev : ServerEvent) (Hin : In (x, ev) (emits out)) :
  is_Some (sockets s' !! x).
Proof.
  pose proof (run_Inv _ _ _ Hrun) as HI.
  assert (Hreply : ∀ id, is_Some (sockets s' !! id) →
            (∀ a, is_Some (sockets s !! a) → is_Some (sockets s' !! a)) →
            In (x, ev) (matchmaking_reply id (waitingQueue s)) →
            is_Some (sockets s' !! x)).
  { intros id Hid Hmono. rewrite (matchmaking_reply_inv s id HI).
    destruct (waitingQueue s) as [|w q] eqn:Hq.
    - by intros [[= <- _]|[]].
    - assert (Hw : In w (waitingQueue s)) by (rewrite Hq; by left).
      intros [[= <- _]|[[= <- _]|[]]]; [|done].
      apply Hmono. rewrite (inv_queue_live s HI w Hw). eauto. }
  rewrite (step_emits s now e s' out HI Hstep) in Hin.
  pose proof (step_sockets s now e s' out Hstep) as Hs.
  destruct e as [id ua|id payload|id|id reason|id message|]; simpl in Hin; try done.
  - apply (Hreply id); [| |done].
    + rewrite Hs, lookup_insert_eq. eauto.
    + intros a Ha. rewrite Hs. by apply live_insert.
  - pose proof (step_socket_known s now _ s' out id Hstep eq_refl) as Hlive.
    rewrite Hs. apply on_signal_emits_cases in Hin as [[-> _]|(_ & Hl & _)]; done.
  - pose proof (step_socket_known s now _ s' out id Hstep eq_refl) as Hlive.
    simpl in Hlive. apply in_app_or in Hin as [Hin|Hin].
    + unfold unpair_notice in Hin. rewrite (peer_of_inv s _ HI) in Hin.
      destruct (peers s !! id) as [p|] eqn:Hp; [|done].
      destruct Hin as [[= <- _]|[]]. rewrite Hs.
      apply (inv_peers_sym s HI) in Hp. by eapply (inv_peers_live s HI).
    + apply (Hreply id); rewrite ?Hs; done.
  - destruct (peers s !! id) as [p|] eqn:Hp; [|done].
    case_bool_decide as Hne; [done|]. destruct Hin as [[= <- _]|[]].
    rewrite Hs, lookup_delete_ne by done.
    apply (inv_peers_sym s HI) in Hp. by eapply (inv_peers_live s HI).
Qed.

Lemma emits_reach_connected_sockets_witness :
  is_Some (sockets (state_after demo_requeue) !! "B").
Proof.
  apply (emits_reach_connected_sockets demo_pair (state_after demo_pair)
           (output_of demo_pair) eq_refl 400000%Z (FindNext "A")
           (state_after demo_requeue)
           [ Log 400000 "FIND_NEXT_REQUESTED" "A" DNone;
             Emit "B" PeerDisconnected;
             Log 400000 "ADDED_TO_QUEUE_AGAIN" "A" (DQueuePosition 1);
             Emit "A" WaitingForPeer ]
           eq_refl "B" PeerDisconnected).
  simpl. by left.
Defined.

Lemma with_match_lookup id w q m :
  with_match id (w :: q) m !! socketId w = Some id ∧
  with_match id (w :: q) m !! id = Some (socketId w).
Proof.
  unfold with_match. split; [apply lookup_insert_eq|].
  destruct (decide (socketId w = id)) as [He|Hne].
  - rewrite He. apply lookup_insert_eq.
  - rewrite lookup_insert_ne by done. apply lookup_insert_eq.
Qed.

(** X5. A match-found event tells the truth about the pairing table: from
    every reachable state, when a step sends [x] a match-found naming
    [y], the table after the step pairs [x] with [y] and [y] with [x]. *)
Theorem match_found_agrees_with_table (evs : list (Z * Event)) (s : State)
    (out0 : list Action) (Hrun : run initial evs = Some (s, out0))
    (now : Z) (e : Event) (s' : State) (out : list Action)
    (Hstep : step s now e = Some (s', out))
    (x y : string) (b : bool) (Hin : In (x, MatchFound y b) (emits out)) :
  partnerOf s' x = Some y ∧ partnerOf s' y = Some x.
Proof.
  pose proof (run_Inv _ _ _ Hrun) as HI. unfold partnerOf.
  assert (Hreply : ∀ id m, In (x, MatchFound y b) (matchmaking_reply id (waitingQueue s)) →
            with_match id (waitingQueue s) m !! x = Some y ∧
            with_match id (waitingQueue s) m !! y = Some x).
  { intros id m. rewrite (matchmaking_reply_inv s id HI).
    destruct (waitingQueue s) as [|w q] eqn:Hq.
    - by intros [[=]|[]].
    - destruct (with_match_lookup id w q m) as [H1 H2].
      by intros [[= <- <- _]|[[= <- <- _]|[]]]. }
  rewrite (step_emits s now e s' out HI Hstep) in Hin.
  rewrite (step_peers s now e s' out HI Hstep).
  destruct e as [id ua|id payload|id|id reason|id message|]; simpl in Hin; try done.
  - by apply Hreply.
  - by apply on_signal_emits_cases in Hin as [[_ [=]]|(_ & _ & [=])].
  - apply in_app_or in Hin as [Hin|Hin]; [|by apply Hreply].
    unfold unpair_notice in Hin. destruct (peer_of (peers s) id); [|done].
    by destruct Hin as [[=]|[]].
  - destruct (peers s !! id); [|done]. case_bool_decide; [done|].
    by destruct Hin as [[=]|[]].
Qed.

Lemma match_found_agrees_with_table_witness :
  partnerOf (state_after demo_pair) "A" = Some "B" ∧
  partnerOf (state_after demo_pair) "B" = Some "A".
Proof.
  apply (match_found_agrees_with_table demo_alone (state_after demo_alone)
           (output_of demo_alone) eq_refl 1000%Z (Connect "B" None)
           (state_after demo_pair)
           [ Log 1000 "USER_CONNECTED" "B" (DUserAgent None);
             Log 1000 "MATCH_FOUND" "B" (DPeer "A");
             Emit "A" (MatchFound "B" true);
             Emit "B" (MatchFound "A" false) ]
           eq_refl "A" "B" true).
  simpl. by left.
Defined.

(** X6. A socket that connects or sends find-next is never left idle: from
    every reachable state, after the step it either waits as the only
    entry of the queue, or it is paired with the socket that waited. *)
Theorem requester_queued_or_paired (evs : list (Z * Event)) (s : State)
    (out0 : list Action) (Hrun : run initial evs = Some (s, out0))
    (now : Z) (e : Event) (id : string) (s' : State) (out : list Action)
    (He : (∃ ua, e = Connect id ua) ∨ e = FindNext id)
    (Hstep : step s now e = Some (s', out)) :
  (waitingQueue s = [] ∧
   ∃ user, waitingQueue s' = [user] ∧ socketId user = id ∧ partnerOf s' id = None) ∨
  (∃ w q, waitingQueue s = w :: q ∧ waitingQueue s' = q ∧
          partnerOf s' id = Some (socketId w) ∧ partnerOf s' (socketId w) = Some id).
Proof.
  pose proof (run_Inv _ _ _ Hrun) as HI.
  assert (HI' : Inv s') by (by eapply Inv_step).
  pose proof (step_queue s now e s' out HI Hstep) as Hq'.
  pose proof (step_peers s now e s' out HI Hstep) as Hp'.
  unfold partnerOf.
  destruct (waitingQueue s) as [|w q] eqn:Hq.
  - left. split; [done|].
    destruct He as [[ua ->]| ->].
    + eexists. split; [exact Hq'|]. split; [done|].
      apply (inv_queue_unpaired s' HI'
               {| socketId := id; joinedAt := now; userAgent := ua |}).
      rewrite Hq'. by left.
    + pose proof (step_socket_known s now _ s' out id Hstep eq_refl) as [user Hu].
      simpl in Hq'. rewrite Hu in Hq'.
      destruct (inv_sockets s HI _ _ Hu) as [Hid _].
      exists user. split; [done|]. split; [done|]. rewrite <- Hid.
      apply (inv_queue_unpaired s' HI' user). rewrite Hq'. by left.
  - right. exists w, q. split; [done|].
    destruct He as [[ua ->]| ->]; simpl in Hq', Hp'; rewrite Hp';
      (split; [done|]).
    + destruct (with_match_lookup id w q (peers s)) as [H1 H2]. done.
    + destruct (with_match_lookup id w q (without_pair id (peers s))) as [H1 H2]. done.
Qed.

Lemma requester_queued_or_paired_witness :
  (waitingQueue (state_after demo_alone) = [] ∧
   ∃ user, waitingQueue (state_after demo_pair) = [user] ∧ socketId user = "B" ∧
           partnerOf (state_after demo_pair) "B" = None) ∨
  (∃ w q, waitingQueue (state_after demo_alone) = w :: q ∧
          waitingQueue (state_after demo_pair) = q ∧
          partnerOf (state_after demo_pair) "B" = Some (socketId w) ∧
          partnerOf (state_after demo_pair) (socketId w) = Some "B").
Proof.
  apply (requester_queued_or_paired demo_alone (state_after demo_alone)
           (output_of demo_alone) eq_refl 1000%Z (Connect "B" None) "B"
           (state_after demo_pair)
           [ Log 1000 "USER_CONNECTED" "B" (DUserAgent None);
             Log 1000 "MATCH_FOUND" "B" (DPeer "A");
             Emit "A" (MatchFound "B" true);
             Emit "B" (MatchFound "A" false) ]).
  - left. by exists None.
  - reflexivity.
Defined.

Lemma queue_count_filter_keeps a (f : User → bool) q :
  (∀ u, In u q → socketId u = a → f u = true) →
  queue_count a (List.filter f q) = queue_count a q.
Proof.
  unfold queue_count. induction q as [|u q IH]; intros Hf; simpl; [done|].
  assert (IH' := IH (fun v Hv => Hf v (or_intror Hv))).
  destruct (String.eqb (socketId u) a) eqn:He.
  - apply String.eqb_eq in He. rewrite (Hf u (or_introl eq_refl) He). simpl.
    apply String.eqb_eq in He. rewrite He. simpl. by rewrite IH'.
  - destruct (f u); simpl; rewrite ?He; done.
Qed.

Lemma queue_count_absent a q :
  ¬ In a (List.map socketId q) → queue_count a q = 0.
Proof.
  unfold queue_count. induction q as [|u q IH]; simpl; [done|]. intros Hn.
  destruct (String.eqb (socketId u) a) eqn:He.
  - apply String.eqb_eq in He. tauto.
  - apply IH. tauto.
Qed.

Lemma with_match_other id q m a :
  a ≠ id → ¬ In a (match q with w :: _ => [socketId w] | [] => [] end) →
  with_match id q m !! a = m !! a.
Proof.
  intros Hid Hh. destruct q as [|w q]; [done|]. simpl in *.
  rewrite !lookup_insert_ne; [done|..]; intros Heq; first [tauto|congruence].
Qed.

Lemma without_pair_other id m a :
  a ≠ id → ¬ In a (match m !! id with Some p => [p] | None => [] end) →
  without_pair id m !! a = m !! a.
Proof.
  intros Hid Hp. unfold without_pair. destruct (m !! id) as [p|]; [|done].
  simpl in Hp. rewrite !lookup_delete_ne; [done|..]; intros Heq;
    first [tauto|congruence].
Qed.

(** X7. A step concerns only the sockets involved in it.  From every
    reachable state, for a socket other than the one the event comes from,
    its partner, and (on connect and find-next) the waiter at the head of
    the queue (for the sweep: other than the sockets whose entries are
    expired), the step leaves its pairing, its table and [userInfo]
    entries and its queue entries as they were, and sends it nothing. *)
Theorem step_concerns_only_involved (evs : list (Z * Event)) (s : State)
    (out0 : list Action) (Hrun : run initial evs = Some (s, out0))
    (now : Z) (e : Event) (s' : State) (out : list Action)
    (Hstep : step s now e = Some (s', out))
    (a : string) (Ha : ¬ In a (concerned s now e)) :
  partnerOf s' a = partnerOf s a ∧
  sockets s' !! a = sockets s !! a ∧
  userInfo s' !! a = userInfo s !! a ∧
  queue_count a (waitingQueue s') = queue_count a (waitingQueue s) ∧
  ∀ ev, ¬ In (a, ev) (emits out).
Proof.
  pose proof (run_Inv _ _ _ Hrun) as HI.
  assert (HI' : Inv s') by (by eapply Inv_step).
  pose proof (step_queue s now e s' out HI Hstep) as Hq'.
  pose proof (step_peers s now e s' out HI Hstep) as Hp'.
  pose proof (step_sockets s now e s' out Hstep) as Hs'.
  pose proof (step_emits s now e s' out HI Hstep) as He'.
  rewrite (inv_userInfo s HI), (inv_userInfo s' HI').
  unfold partnerOf. rewrite Hp', Hs', Hq', He'. clear Hp' Hs' Hq' He'.
  assert (Hreply : ∀ id ev, a ≠ id → ¬ In a (head_list s) →
            ¬ In (a, ev) (matchmaking_reply id (waitingQueue s))).
  { intros id ev Hid Hh. rewrite (matchmaking_reply_inv s id HI).
    unfold head_list in Hh. destruct (waitingQueue s) as [|w q]; simpl in *.
    - intros [[= H _]|[]]. congruence.
    - intros [[= H _]|[[= H _]|[]]]; [tauto|congruence]. }
  assert (Hhead : ∀ q w, socketId w ≠ a →
            queue_count a q = queue_count a (w :: q)).
  { intros q w Hne. unfold queue_count. simpl.
    destruct (String.eqb (socketId w) a) eqn:Heq; [|done].
    apply String.eqb_eq in Heq. congruence. }
  unfold concerned, partner_list, head_list in *.
  destruct e as [id ua|id payload|id|id reason|id message|]; simpl in Ha.
  - assert (Hid : a ≠ id) by (intros ->; tauto).
    assert (Hh : ¬ In a (head_list s)) by (unfold head_list; tauto).
    split; [apply with_match_other; tauto|].
    split; [by rewrite lookup_insert_ne|]. split; [by rewrite lookup_insert_ne|].
    split; [|intros ev; by apply Hreply].
    destruct (waitingQueue s) as [|w q] eqn:Hq.
    + unfold queue_count. simpl.
      destruct (String.eqb id a) eqn:Heq; [|done].
      apply String.eqb_eq in Heq. congruence.
    + apply Hhead. simpl in Ha. tauto.
  - repeat split; try done. intros ev Hin.
    apply on_signal_emits_cases in Hin as [[-> _]|(Hp & _ & _)]; [tauto|].
    rewrite (peer_of_inv s _ HI) in Hp. rewrite Hp in Ha. simpl in Ha. tauto.
  - assert (Hid : a ≠ id) by (intros ->; tauto).
    assert (Hh : ¬ In a (head_list s)).
    { unfold head_list. intros Hin. apply Ha. right. apply in_or_app. by right. }
    assert (Hpl : ¬ In a (match peers s !! id with Some p => [p] | None => [] end)).
    { intros Hin. apply Ha. right. apply in_or_app. by left. }
    split.
    { rewrite with_match_other by (unfold head_list in Hh; tauto).
      by apply without_pair_other. }
    split; [done|]. split; [done|]. split.
    + destruct (waitingQueue s) as [|w q] eqn:Hq.
      * pose proof (step_socket_known s now _ s' out id Hstep eq_refl) as [user Hu].
        simpl. rewrite Hu. destruct (inv_sockets s HI _ _ Hu) as [Hsu _].
        unfold queue_count. simpl.
        destruct (String.eqb (socketId user) a) eqn:Heq; [|done].
        apply String.eqb_eq in Heq. congruence.
      * apply Hhead. unfold head_list in Hh. rewrite Hq in Hh. simpl in Hh. tauto.
    + intros ev Hin. apply in_app_or in Hin as [Hin|Hin]; [|by eapply Hreply].
      unfold unpair_notice in Hin. rewrite (peer_of_inv s _ HI) in Hin.
      destruct (peers s !! id) as [p|]; [|done].
      destruct Hin as [[= H1 _]|[]]. simpl in Hpl. tauto.
  - assert (Hid : a ≠ id) by (intros ->; tauto).
    split; [apply without_pair_other; tauto|].
    split; [by rewrite lookup_delete_ne|]. split; [by rewrite lookup_delete_ne|].
    split.
    + apply queue_count_filter_keeps. intros u _ Hu.
      apply negb_true_iff, String.eqb_neq. congruence.
    + intros ev Hin. destruct (peers s !! id) as [p|]; [|done].
      case_bool_decide; [done|]. destruct Hin as [[= H1 _]|[]]. simpl in Ha. tauto.
  - repeat split; try done. intros ev [].
  - repeat split; try done; [|intros ev []].
    apply queue_count_filter_keeps. intros u Hu Hua.
    apply negb_true_iff. destruct (isExpired now u) eqn:Hexp; [|done].
    exfalso. apply Ha. rewrite <- Hua. apply in_map. apply filter_In. done.
Qed.

Lemma step_concerns_only_involved_witness :
  partnerOf (state_after demo_waiting) "B" = partnerOf (state_after demo_pair) "B" ∧
  sockets (state_after demo_waiting) !! "B" = sockets (state_after demo_pair) !! "B" ∧
  userInfo (state_after demo_waiting) !! "B" = userInfo (state_after demo_pair) !! "B" ∧
  queue_count "B" (waitingQueue (state_after demo_waiting)) =
    queue_count "B" (waitingQueue (state_after demo_pair)) ∧
  ∀ ev, ¬ In ("B", ev)
            (emits [ Log 2000 "USER_CONNECTED" "C" (DUserAgent None);
                     Log 2000 "ADDED_TO_QUEUE" "C" (DQueuePosition 1);
                     Emit "C" WaitingForPeer ]).
Proof.
  apply (step_concerns_only_involved demo_pair (state_after demo_pair)
           (output_of demo_pair) eq_refl 2000%Z (Connect "C" None)
           (state_after demo_waiting)
           [ Log 2000 "USER_CONNECTED" "C" (DUserAgent None);
             Log 2000 "ADDED_TO_QUEUE" "C" (DQueuePosition 1);
             Emit "C" WaitingForPeer ]
           eq_refl "B").
  simpl. intros [H|[]]. discriminate H.
Defined.

(** X8. The sweep evicts silently.  From every reachable state, a waiter
    whose entry is expired is removed from the queue and logged as
    QUEUE_TIMEOUT, and that is all: no event is sent to anyone, and the
    socket stays connected with no queue entry and no pairing until it
    acts itself. *)
Theorem sweep_strands_waiter (evs : list (Z * Event)) (s : State)
    (out0 : list Action) (Hrun : run initial evs = Some (s, out0))
    (now : Z) (w : User) (Hw : In w (waitingQueue s))
    (Hexp : (timeout < now - joinedAt w)%Z) :
  ∃ s', step s now Sweep =
          Some (s', [ Log now "QUEUE_TIMEOUT" (socketId w) DNone ]) ∧
        waitingQueue s' = [] ∧
        peers s' = peers s ∧ userInfo s' = userInfo s ∧ sockets s' = sockets s ∧
        sockets s' !! socketId w = Some w ∧
        in_state s' (socketId w) NotPresent.
Proof.
  pose proof (run_Inv _ _ _ Hrun) as HI.
  pose proof (inv_queue_short s HI) as Hlen.
  pose proof (inv_queue_live s HI w Hw) as Hlive.
  pose proof (inv_queue_unpaired s HI w Hw) as Hnp.
  assert (Hx : isExpired now w = true) by (by apply Z.ltb_lt).
  exists (sweep now s).1.
  destruct (waitingQueue s) as [|w0 [|w1 q]] eqn:Hq; simpl in *; [done| |lia].
  destruct Hw as [->|[]].
  unfold sweep. rewrite Hq. simpl. rewrite Hx. simpl.
  repeat split; done.
Qed.

Lemma sweep_strands_waiter_witness :
  ∃ s', step (state_after demo_alone) 400000 Sweep =
          Some (s', [ Log 400000 "QUEUE_TIMEOUT" "A" DNone ]) ∧
        waitingQueue s' = [] ∧
        peers s' = peers (state_after demo_alone) ∧
        userInfo s' = userInfo (state_after demo_alone) ∧
        sockets s' = sockets (state_after demo_alone) ∧
        sockets s' !! "A" = Some userA ∧
        in_state s' "A" NotPresent.
Proof.
  apply (sweep_strands_waiter demo_alone (state_after demo_alone)
           (output_of demo_alone) eq_refl 400000%Z userA).
  - vm_compute. by left.
  - vm_compute. reflexivity.
Defined.

Lemma filter_filter_implied {A} (f g : A → bool) (l : list A) :
  (∀ x, g x = true → f x = true) →
  List.filter g (List.filter f l) = List.filter g l.
Proof.
  intros Hfg. induction l as [|x l IH]; simpl; [done|].
  destruct (f x) eqn:Hf; simpl.
  - by rewrite IH.
  - destruct (g x) eqn:Hg; [|done]. apply Hfg in Hg. congruence.
Qed.

(** X9. Sweeps compose: a sweep at clock reading [now2] after one at an
    earlier reading [now1] leaves the queue that the sweep at [now2] alone
    leaves; in particular a second sweep at the same reading removes and
    logs nothing more. *)
Theorem sweep_after_sweep (now1 now2 : Z) (s : State) (Hle : (now1 ≤ now2)%Z) :
  waitingQueue (sweep now2 (sweep now1 s).1).1 = waitingQueue (sweep now2 s).1 ∧
  (sweep now1 (sweep now1 s).1).1 = (sweep now1 s).1 ∧
  (sweep now1 (sweep now1 s).1).2 = [].
Proof.
  split; [|split].
  - simpl. apply filter_filter_implied. intros u. unfold isExpired.
    rewrite !negb_true_iff, !Z.ltb_ge. lia.
  - unfold sweep. simpl. f_equal. by apply filter_filter_implied.
  - simpl.
    assert (H : List.filter (isExpired now1)
                  (List.filter (fun user => negb (isExpired now1 user)) (waitingQueue s)) = []).
    { induction (waitingQueue s) as [|u l IH]; simpl; [done|].
      destruct (isExpired now1 u) eqn:Hx; simpl; [done|]. by rewrite Hx. }
    by rewrite H.
Qed.

Lemma sweep_after_sweep_witness :
  waitingQueue (sweep 500000 (sweep 100000 (state_after demo_alone)).1).1 =
    waitingQueue (sweep 500000 (state_after demo_alone)).1 ∧
  (sweep 100000 (sweep 100000 (state_after demo_alone)).1).1 =
    (sweep 100000 (state_after demo_alone)).1 ∧
  (sweep 100000 (sweep 100000 (state_after demo_alone)).1).2 = [].
Proof.
  apply (sweep_after_sweep 100000 500000 (state_after demo_alone)). lia.
Defined.

Lemma state_eq (s1 s2 : State) :
  waitingQueue s1 = waitingQueue s2 → peers s1 = peers s2 →
  userInfo s1 = userInfo s2 → sockets s1 = sockets s2 → s1 = s2.
Proof. destruct s1, s2. simpl. by intros -> -> -> ->. Qed.

(** X10. Connecting and leaving again is a round trip when nobody waits:
    from a reachable state with an empty queue, a connection of a fresh
    socket followed by its disconnection gives back exactly the state
    before, and all that was sent is the waiting-for-peer to the socket
    itself. *)
Theorem connect_disconnect_round_trip (evs : list (Z * Event)) (s : State)
    (out0 : list Action) (Hrun : run initial evs = Some (s, out0))
    (Hq : waitingQueue s = [])
    (id : string) (Hfresh : sockets s !! id = None) (Hid : truthy id = true)
    (t1 t2 : Z) (ua : option string) (reason : string) :
  ∃ out, run s [ (t1, Connect id ua); (t2, Disconnect id reason) ] = Some (s, out) ∧
         emits out = [ (id, WaitingForPeer) ].
Proof.
  pose proof (run_Inv _ _ _ Hrun) as HI.
  pose proof (unpaired_of_not_live s id HI Hfresh) as Hnp.
  assert (Hinfo : userInfo s !! id = None) by (by rewrite (inv_userInfo s HI)).
  eexists. split.
  - simpl. rewrite Hfresh, Hid. unfold on_connection.
    rewrite matchmaking_empty by done. simpl.
    rewrite lookup_insert_eq. unfold on_disconnect, cleanupUser, peer_of. simpl.
    rewrite Hnp, String.eqb_refl. simpl.
    rewrite !delete_insert_id by done.
    repeat f_equal. by apply state_eq.
  - done.
Qed.

Lemma connect_disconnect_round_trip_witness :
  ∃ out, run (state_after demo_pair)
           [ (2000%Z, Connect "C" None); (3000%Z, Disconnect "C" "client left") ] =
           Some (state_after demo_pair, out) ∧
         emits out = [ ("C", WaitingForPeer) ].
Proof.
  apply (connect_disconnect_round_trip demo_pair (state_after demo_pair)
           (output_of demo_pair) eq_refl eq_refl "C" eq_refl eq_refl).
Defined.

Lemma filter_idem {A} (f : A → bool) (l : list A) :
  List.filter f (List.filter f l) = List.filter f l.
Proof. by apply filter_filter_implied. Qed.

Lemma filter_all {A} (f : A → bool) (l : list A) :
  (∀ x, In x l → f x = true) → List.filter f l = l.
Proof.
  induction l as [|x l IH]; intros H; simpl; [done|].
  rewrite (H x (or_introl eq_refl)). f_equal. apply IH. intros y Hy. apply H. by right.
Qed.

(** X11. [cleanupUser] is idempotent on every state, and for an identifier
    that has no pairing, no queue entry and no [userInfo] entry it changes
    nothing. *)
Theorem cleanupUser_idempotent (id : string) (s : State) :
  cleanupUser id (cleanupUser id s) = cleanupUser id s ∧
  (peers s !! id = None → queue_count id (waitingQueue s) = 0 →
   userInfo s !! id = None → cleanupUser id s = s).
Proof.
  split.
  - apply state_eq; simpl.
    + apply filter_idem.
    + destruct (peer_of (peers s) id) as [p|] eqn:Hp.
      * unfold peer_of at 1. by rewrite lookup_delete_eq.
      * by rewrite Hp.
    + apply delete_delete_eq.
    + done.
  - intros Hp Hc Hu. apply state_eq; simpl.
    + apply filter_all. intros u Hin. apply negb_true_iff.
      destruct (String.eqb (socketId u) id) eqn:He; [|done]. exfalso.
      apply String.eqb_eq in He.
      assert (H : In u (List.filter (fun user => String.eqb (socketId user) id)
                          (waitingQueue s))).
      { apply filter_In. split; [done|]. by apply String.eqb_eq. }
      unfold queue_count in Hc.
      destruct (List.filter _ (waitingQueue s)); [done|discriminate Hc].
    + unfold peer_of. by rewrite Hp.
    + by apply delete_id.
    + done.
Qed.

Lemma cleanupUser_idempotent_witness :
  cleanupUser "Z" (cleanupUser "Z" (state_after demo_pair)) =
    cleanupUser "Z" (state_after demo_pair) ∧
  cleanupUser "Z" (state_after demo_pair) = state_after demo_pair.
Proof.
  destruct (cleanupUser_idempotent "Z" (state_after demo_pair)) as [H1 H2].
  split; [exact H1|]. apply H2; reflexivity.
Defined.

Lemma sent_to_app x l1 l2 : sent_to x (l1 ++ l2) = (sent_to x l1 ++ sent_to x l2)%list.
Proof. unfold sent_to. by rewrite List.filter_app, List.map_app. Qed.

(** X12. find-next releases the partner as a disconnect does.  From every
    reachable state, when a socket paired with another socket [p] sends
    find-next, [p] is sent exactly one event, peer-disconnected, and after
    the step [p] is still connected but has no pairing and no queue entry:
    it is not matched again until it sends find-next itself. *)
Theorem find_next_releases_partner (evs : list (Z * Event)) (s : State)
    (out0 : list Action) (Hrun : run initial evs = Some (s, out0))
    (id p : string) (Hp : partnerOf s id = Some p) (Hne : p ≠ id) (now : Z) :
  ∃ s' out,
    step s now (FindNext id) = Some (s', out) ∧
    sent_to p (emits out) = [ PeerDisconnected ] ∧
    partnerOf s' p = None ∧
    queue_count p (waitingQueue s') = 0 ∧
    is_Some (sockets s' !! p).
Proof.
  pose proof (run_Inv _ _ _ Hrun) as HI. unfold partnerOf in *.
  pose proof (inv_peers_sym s HI _ _ Hp) as Hpi.
  destruct (inv_peers_live s HI _ _ Hp) as [user Hu].
  pose proof (inv_peers_live s HI _ _ Hpi) as Hpl.
  pose proof (paired_not_queued s p id HI Hpi) as Hpq.
  exists (on_find_next now user s).1, (on_find_next now user s).2.
  assert (Hstep : step s now (FindNext id) =
                  Some ((on_find_next now user s).1, (on_find_next now user s).2)).
  { simpl. rewrite Hu. by destruct (on_find_next now user s). }
  split; [done|].
  pose proof (step_emits s now _ _ _ HI Hstep) as He.
  pose proof (step_peers s now _ _ _ HI Hstep) as Hpe.
  pose proof (step_queue s now _ _ _ HI Hstep) as Hqu.
  pose proof (step_sockets s now _ _ _ Hstep) as Hso.
  simpl in He, Hpe, Hqu, Hso. rewrite He, Hpe, Hqu, Hso. clear He Hpe Hqu Hso.
  assert (Hhead : ∀ w q, waitingQueue s = w :: q → socketId w ≠ p).
  { intros w q Hq Heq.
    assert (Hw : In w (waitingQueue s)) by (rewrite Hq; by left).
    pose proof (inv_queue_unpaired s HI w Hw) as Hnp. congruence. }
  split; [|split; [|split; [|done]]].
  - rewrite sent_to_app. unfold unpair_notice.
    rewrite (peer_of_inv s _ HI), Hp, (matchmaking_reply_inv s id HI).
    unfold sent_to at 1. simpl. rewrite String.eqb_refl. simpl.
    assert (Hidp : String.eqb id p = false) by (apply String.eqb_neq; congruence).
    unfold sent_to.
    destruct (waitingQueue s) as [|w q] eqn:Hq; simpl; rewrite Hidp.
    + done.
    + assert (Hwp : String.eqb (socketId w) p = false)
        by (apply String.eqb_neq; by eapply Hhead).
      by rewrite Hwp.
  - unfold without_pair. rewrite Hp.
    assert (Hdel : delete id (delete p (peers s)) !! p = None).
    { rewrite lookup_delete_ne by congruence. apply lookup_delete_eq. }
    destruct (waitingQueue s) as [|w q] eqn:Hq; [done|]. simpl.
    rewrite !lookup_insert_ne; [done|congruence|]. by eapply Hhead.
  - destruct (waitingQueue s) as [|w q] eqn:Hq.
    + rewrite Hu. unfold queue_count. simpl.
      destruct (inv_sockets s HI _ _ Hu) as [Hsu _].
      assert (Hup : String.eqb (socketId user) p = false)
        by (apply String.eqb_neq; congruence).
      by rewrite Hup.
    + pose proof (queue_count_le p q) as Hle.
      unfold queue_count in Hpq. simpl in Hpq.
      assert (Hwp : String.eqb (socketId w) p = false)
        by (apply String.eqb_neq; by eapply Hhead).
      rewrite Hwp in Hpq. done.
Qed.

Lemma find_next_releases_partner_witness :
  ∃ s' out,
    step (state_after demo_pair) 400000 (FindNext "A") = Some (s', out) ∧
    sent_to "B" (emits out) = [ PeerDisconnected ] ∧
    partnerOf s' "B" = None ∧
    queue_count "B" (waitingQueue s') = 0 ∧
    is_Some (sockets s' !! "B").
Proof.
  apply (find_next_releases_partner demo_pair (state_after demo_pair)
           (output_of demo_pair) eq_refl "A" "B" eq_refl).
  intros H. discriminate H.
Defined.

Lemma step_total_find_next s now id user :
  sockets s !! id = Some user →
  step s now (FindNext id) =
  Some ((on_find_next now user s).1, (on_find_next now user s).2).
Proof. intros Hu. simpl. rewrite Hu. by destruct (on_find_next now user s). Qed.

Lemma repair_pair (m : gmap string string) a b :
  m !! a = Some b → m !! b = Some a →
  <[a := b]> (<[b := a]> (delete a (delete b m))) = m.
Proof.
  intros Ha Hb. apply map_eq. intros k.
  destruct (decide (k = a)) as [->|Hka].
  - by rewrite lookup_insert_eq.
  - rewrite lookup_insert_ne by done.
    destruct (decide (k = b)) as [->|Hkb].
    + by rewrite lookup_insert_eq.
    + by rewrite lookup_insert_ne, !lookup_delete_ne by done.
Qed.

(** X13. Two sockets that skip each other while nobody waits are matched
    with each other again.  From a reachable state with an empty queue in
    which [id] is paired with another socket [p], find-next from [id]
    followed by find-next from [p] gives back exactly the state before;
    [p] was told that its peer left, [id] was told to wait, and the new
    match makes [id] (who waited) the initiator. *)
Theorem skip_and_skip_back (evs : list (Z * Event)) (s : State)
    (out0 : list Action) (Hrun : run initial evs = Some (s, out0))
    (Hq : waitingQueue s = [])
    (id p : string) (Hp : partnerOf s id = Some p) (Hne : p ≠ id) (t1 t2 : Z) :
  ∃ out, run s [ (t1, FindNext id); (t2, FindNext p) ] = Some (s, out) ∧
         emits out = [ (p, PeerDisconnected); (id, WaitingForPeer);
                       (id, MatchFound p true); (p, MatchFound id false) ].
Proof.
  pose proof (run_Inv _ _ _ Hrun) as HI. unfold partnerOf in *.
  pose proof (inv_peers_sym s HI _ _ Hp) as Hpi.
  destruct (inv_peers_live s HI _ _ Hp) as [user Hu].
  destruct (inv_peers_live s HI _ _ Hpi) as [userp Hup].
  destruct (inv_sockets s HI _ _ Hu) as [Hsu _].
  pose proof (step_total_find_next s t1 id user Hu) as Hstep1.
  set (s1 := (on_find_next t1 user s).1) in *.
  set (out1 := (on_find_next t1 user s).2) in *.
  assert (HI1 : Inv s1) by (by eapply Inv_step).
  pose proof (step_emits s t1 _ _ _ HI Hstep1) as He1.
  pose proof (step_peers s t1 _ _ _ HI Hstep1) as Hp1.
  pose proof (step_queue s t1 _ _ _ HI Hstep1) as Hq1.
  pose proof (step_sockets s t1 _ _ _ Hstep1) as Hs1.
  simpl in He1, Hp1, Hq1, Hs1.
  rewrite Hq, Hu in Hq1. rewrite Hq in Hp1. simpl in Hp1.
  unfold without_pair in Hp1. rewrite Hp in Hp1.
  assert (Hup1 : sockets s1 !! p = Some userp) by (by rewrite Hs1).
  pose proof (step_total_find_next s1 t2 p userp Hup1) as Hstep2.
  set (s2 := (on_find_next t2 userp s1).1) in *.
  set (out2 := (on_find_next t2 userp s1).2) in *.
  assert (HI2 : Inv s2) by (by eapply Inv_step).
  pose proof (step_emits s1 t2 _ _ _ HI1 Hstep2) as He2.
  pose proof (step_peers s1 t2 _ _ _ HI1 Hstep2) as Hp2.
  pose proof (step_queue s1 t2 _ _ _ HI1 Hstep2) as Hq2.
  pose proof (step_sockets s1 t2 _ _ _ Hstep2) as Hs2.
  simpl in He2, Hp2, Hq2, Hs2.
  assert (Hnp1 : peers s1 !! p = None).
  { rewrite Hp1, lookup_delete_ne by congruence. apply lookup_delete_eq. }
  rewrite Hq1 in Hq2, Hp2. simpl in Hp2.
  unfold without_pair in Hp2. rewrite Hnp1, Hsu in Hp2.
  assert (Hs2eq : s2 = s).
  { apply state_eq.
    - by rewrite Hq2, Hq.
    - rewrite Hp2, Hp1. by apply repair_pair.
    - by rewrite (inv_userInfo s2 HI2), Hs2, Hs1, (inv_userInfo s HI).
    - by rewrite Hs2, Hs1. }
  exists (out1 ++ out2 ++ [])%list. split.
  - change (run s [(t1, FindNext id); (t2, FindNext p)]) with
      (match step s t1 (FindNext id) with
       | Some (s', o) =>
           match (match step s' t2 (FindNext p) with
                  | Some (s'', o') => Some (s'', (o' ++ [])%list)
                  | None => None
                  end) with
           | Some (s'', o'') => Some (s'', (o ++ o'')%list)
           | None => None
           end
       | None => None
       end).
    rewrite Hstep1, Hstep2. by rewrite Hs2eq.
  - rewrite !emits_app, He1, He2. simpl.
    unfold unpair_notice. rewrite !(peer_of_inv _ _ HI), !(peer_of_inv _ _ HI1).
    rewrite Hp, Hnp1, Hq.
    rewrite (matchmaking_reply_inv s1 p HI1), Hq1. unfold matchmaking_reply. simpl.
    by rewrite Hsu.
Qed.

Lemma skip_and_skip_back_witness :
  ∃ out, run (state_after demo_pair)
           [ (400000%Z, FindNext "A"); (401000%Z, FindNext "B") ] =
           Some (state_after demo_pair, out) ∧
         emits out = [ ("B", PeerDisconnected); ("A", WaitingForPeer);
                       ("A", MatchFound "B" true); ("B", MatchFound "A" false) ].
Proof.
  apply (skip_and_skip_back demo_pair (state_after demo_pair)
           (output_of demo_pair) eq_refl eq_refl "A" "B" eq_refl).
  intros H. discriminate H.
Defined.

Lemma symmetric_even_size (n : nat) :
  ∀ m : gmap string string,
    size m = n → symmetric m → (∀ a, m !! a ≠ Some a) → ∃ k, size m = 2 * k.
Proof.
  induction n as [n IH] using lt_wf_ind. intros m Hn Hsym Hself.
  destruct (decide (m = ∅)) as [->|Hne].
  - exists 0. by rewrite map_size_empty.
  - destruct (map_choose m Hne) as (a & b & Hab).
    pose proof (Hsym _ _ Hab) as Hba.
    assert (Hneq : a ≠ b) by (intros ->; by apply (Hself b)).
    assert (Hsz : size m = S (S (size (delete a (delete b m))))).
    { assert (H1 : size (delete b m) = Init.Nat.pred (size m))
        by (apply map_size_delete_Some; eauto).
      assert (H2 : size (delete a (delete b m)) = Init.Nat.pred (size (delete b m))).
      { apply map_size_delete_Some. rewrite lookup_delete_ne by done. eauto. }
      assert (H3 : size m ≠ 0).
      { intros H0. apply map_size_empty_iff in H0. done. }
      assert (H4 : size (delete b m) ≠ 0).
      { intros H0. apply map_size_empty_iff in H0.
        assert (Hl : delete b m !! a = Some b) by (by rewrite lookup_delete_ne).
        rewrite H0 in Hl. by rewrite lookup_empty in Hl. }
      lia. }
    destruct (IH (size (delete a (delete b m)))) with (m := delete a (delete b m))
      as [k Hk]; [lia|done| | |].
    + by apply symmetric_delete_pair.
    + intros c Hc. apply lookup_delete_Some in Hc as [_ Hc].
      apply lookup_delete_Some in Hc as [_ Hc]. by apply (Hself c).
    + exists (S k). lia.
Qed.

(** X14. As long as no socket is its own partner, the pairing table has
    an even number of entries and the health endpoint's [activePairs]
    ([peers.size / 2]) is a whole number, the number of pairs. *)
Theorem active_pairs_whole (evs : list (Z * Event)) (s : State) (out : list Action)
    (Hrun : run initial evs = Some (s, out))
    (Hself : ∀ a, partnerOf s a ≠ Some a) (now : Z) :
  ∃ k : nat, size (peers s) = 2 * k ∧
             (activePairs (health now s) == inject_Z (Z.of_nat k))%Q.
Proof.
  pose proof (run_Inv _ _ _ Hrun) as HI.
  destruct (symmetric_even_size (size (peers s)) (peers s) eq_refl
              (inv_peers_sym s HI) Hself) as [k Hk].
  exists k. split; [done|]. unfold health, Qeq. simpl. rewrite Hk. lia.
Qed.

Lemma active_pairs_whole_witness :
  ∃ k : nat, size (peers (state_after demo_pair)) = 2 * k ∧
             (activePairs (health 5000 (state_after demo_pair)) == inject_Z (Z.of_nat k))%Q.
Proof.
  apply (active_pairs_whole demo_pair (state_after demo_pair) (output_of demo_pair) eq_refl).
  intros a Ha. unfold partnerOf in Ha.
  change (peers (state_after demo_pair))
    with (<["A" := "B"]> (<["B" := "A"]> (∅ : gmap string string))) in Ha.
  apply lookup_insert_Some in Ha as [[<- [=]]|[_ Ha]].
  apply lookup_insert_Some in Ha as [[<- [=]]|[_ Ha]].
  by rewrite lookup_empty in Ha.
Defined.

Lemma matchmaking_out_inv s now ev1 ev2 user :
  Inv s →
  (matchmaking now ev1 ev2 user s).2 =
  match waitingQueue s with
  | [] => [ Log now ev2 (socketId user) (DQueuePosition 1);
            Emit (socketId user) WaitingForPeer ]
  | w :: _ => [ Log now ev1 (socketId user) (DPeer (socketId w));
                Emit (socketId w) (MatchFound (socketId user) true);
                Emit (socketId user) (MatchFound (socketId w) false) ]
  end.
Proof.
  intros HI. unfold matchmaking.
  destruct (waitingQueue s) as [|w q] eqn:Hq; [done|]. simpl.
  assert (Hw : In w (waitingQueue s)) by (rewrite Hq; by left).
  by rewrite (queued_truthy s w HI Hw).
Qed.

(** X18. The queue position that the server logs is always 1: from every
    reachable state, whenever a step logs a line with a [queuePosition]
    (ADDED_TO_QUEUE or ADDED_TO_QUEUE_AGAIN), the position is 1, since a
    socket is enqueued only into an empty queue. *)
Theorem queue_position_always_one (evs : list (Z * Event)) (s : State)
    (out0 : list Action) (Hrun : run initial evs = Some (s, out0))
    (now : Z) (e : Event) (s' : State) (out : list Action)
    (Hstep : step s now e = Some (s', out))
    (t : Z) (event id : string) (n : nat)
    (Hin : In (Log t event id (DQueuePosition n)) out) :
  n = 1 ∧ waitingQueue s = [] ∧ length (waitingQueue s') = 1.
Proof.
  pose proof (run_Inv _ _ _ Hrun) as HI.
  pose proof (step_queue s now e s' out HI Hstep) as Hq'.
  assert (Hm : ∀ ev1 ev2 user s1, Inv s1 → waitingQueue s1 = waitingQueue s →
            In (Log t event id (DQueuePosition n)) (matchmaking now ev1 ev2 user s1).2 →
            n = 1 ∧ waitingQueue s = []).
  { intros ev1 ev2 user s1 HI1 Hq1. rewrite (matchmaking_out_inv s1 now ev1 ev2 user HI1), Hq1.
    destruct (waitingQueue s) as [|w q].
    - by intros [[= _ _ _ <-]|[[=]|[]]].
    - by intros [[=]|[[=]|[[=]|[]]]]. }
  destruct e as [i ua|i payload|i|i reason|i message|]; simpl in Hstep.
  - destruct (sockets s !! i) eqn:Hs; [done|]. destruct (truthy i) eqn:Ht; [|done].
    injection Hstep as Hstep. apply (f_equal snd) in Hstep. simpl in Hstep.
    unfold on_connection in Hstep.
    pose proof (Hm "MATCH_FOUND" "ADDED_TO_QUEUE"
                  {| socketId := i; joinedAt := now; userAgent := ua |}
                  (registered now i ua s) (Inv_registered s now i ua HI Hs Ht) eq_refl) as H.
    unfold registered in H. simpl in H.
    destruct (matchmaking _ _ _ _ _) as [s2 o2]. simpl in *. subst out.
    destruct Hin as [[=]|Hin]. destruct (H Hin) as [-> Hq]. rewrite Hq in Hq'.
    by rewrite Hq'.
  - destruct (sockets s !! i); [|done]. injection Hstep as Hstep.
    apply (f_equal snd) in Hstep. simpl in Hstep. subst out. exfalso.
    unfold on_signal in Hin. destruct (peer_of (peers s) i); [|by destruct Hin as [[=]|[[=]|[]]]].
    case_bool_decide; [|by destruct Hin as [[=]|[[=]|[]]]].
    destruct (get_type payload); [by destruct Hin as [[=]|[[=]|[]]]|by destruct Hin as [[=]|[]]].
  - destruct (sockets s !! i) as [user|] eqn:Hs; [|done]. injection Hstep as Hstep.
    apply (f_equal snd) in Hstep. simpl in Hstep. unfold on_find_next in Hstep.
    pose proof (Hm "NEW_MATCH_FOUND" "ADDED_TO_QUEUE_AGAIN" user
                  (unpair (socketId user) s).1 (Inv_unpair s _ HI)
                  (unpair_queue s (socketId user))) as H.
    assert (Hu : ∀ a, In a (unpair (socketId user) s).2 → ∃ x ev, a = Emit x ev).
    { unfold unpair. destruct (peer_of (peers s) (socketId user)); simpl; [|done].
      intros a [<-|[]]. eauto. }
    destruct (unpair (socketId user) s) as [s1 o1]. simpl in *.
    destruct (matchmaking _ _ _ _ _) as [s2 o2]. simpl in *. subst out.
    destruct Hin as [[=]|Hin]. apply in_app_or in Hin as [Hin|Hin].
    + destruct (Hu _ Hin) as (x & ev & [=]).
    + destruct (H Hin) as [-> Hq]. rewrite Hq in Hq'. by rewrite Hq'.
  - destruct (sockets s !! i); [|done]. injection Hstep as _ <-. exfalso.
    unfold on_disconnect in Hin. simpl in Hin. destruct Hin as [[=]|Hin].
    destruct (peer_of _ i); [|done]. case_bool_decide; [|done].
    by destruct Hin as [[=]|[]].
  - destruct (sockets s !! i); [|done]. injection Hstep as _ <-.
    by destruct Hin as [[=]|[]].
  - injection Hstep as _ <-. exfalso. simpl in Hin.
    apply in_map_iff in Hin as (u & [=] & _).
Qed.

Lemma queue_position_always_one_witness :
  1 = 1 ∧ waitingQueue (state_after demo_pair) = [] ∧
  length (waitingQueue (state_after demo_waiting)) = 1.
Proof.
  apply (queue_position_always_one demo_pair (state_after demo_pair)
           (output_of demo_pair) eq_refl 2000%Z (Connect "C" None)
           (state_after demo_waiting)
           [ Log 2000 "USER_CONNECTED" "C" (DUserAgent None);
             Log 2000 "ADDED_TO_QUEUE" "C" (DQueuePosition 1);
             Emit "C" WaitingForPeer ]
           eq_refl 2000%Z "ADDED_TO_QUEUE" "C" 1).
  simpl. right. by left.
Defined.

(** X19. A socket is told that its peer left only when its partner did
    skip or disconnect: from every reachable state, a peer-disconnected
    sent to [x] by a step means that the step is a find-next or a
    disconnect of the socket that was paired with [x]. *)
Theorem peer_disconnected_only_from_partner (evs : list (Z * Event)) (s : State)
    (out0 : list Action) (Hrun : run initial evs = Some (s, out0))
    (now : Z) (e : Event) (s' : State) (out : list Action)
    (Hstep : step s now e = Some (s', out))
    (x : string) (Hin : In (x, PeerDisconnected) (emits out)) :
  ∃ id, partnerOf s id = Some x ∧ partnerOf s x = Some id ∧
        (e = FindNext id ∨ ∃ reason, e = Disconnect id reason).
Proof.
  pose proof (run_Inv _ _ _ Hrun) as HI. unfold partnerOf.
  rewrite (step_emits s now e s' out HI Hstep) in Hin.
  assert (Hreply : ∀ id, ¬ In (x, PeerDisconnected) (matchmaking_reply id (waitingQueue s))).
  { intros id. unfold matchmaking_reply.
    destruct (found _); [by intros [[=]|[[=]|[]]]|by intros [[=]|[]]]. }
  destruct e as [id ua|id payload|id|id reason|id message|]; simpl in Hin; try done.
  - by apply Hreply in Hin.
  - by apply on_signal_emits_cases in Hin as [[_ [=]]|(_ & _ & [=])].
  - apply in_app_or in Hin as [Hin|Hin]; [|by apply Hreply in Hin].
    unfold unpair_notice in Hin. rewrite (peer_of_inv s _ HI) in Hin.
    destruct (peers s !! id) as [p|] eqn:Hp; [|done].
    destruct Hin as [[= <-]|[]]. exists id.
    split; [done|]. split; [by apply (inv_peers_sym s HI)|by left].
  - destruct (peers s !! id) as [p|] eqn:Hp; [|done].
    case_bool_decide; [done|]. destruct Hin as [[= <-]|[]]. exists id.
    split; [done|]. split; [by apply (inv_peers_sym s HI)|right; eauto].
Qed.

Lemma peer_disconnected_only_from_partner_witness :
  ∃ id, partnerOf (state_after demo_pair) id = Some "B" ∧
        partnerOf (state_after demo_pair) "B" = Some id ∧
        (FindNext "A" = FindNext id ∨ ∃ reason, FindNext "A" = Disconnect id reason).
Proof.
  apply (peer_disconnected_only_from_partner demo_pair (state_after demo_pair)
           (output_of demo_pair) eq_refl 400000%Z (FindNext "A")
           (state_after demo_requeue)
           [ Log 400000 "FIND_NEXT_REQUESTED" "A" DNone;
             Emit "B" PeerDisconnected;
             Log 400000 "ADDED_TO_QUEUE_AGAIN" "A" (DQueuePosition 1);
             Emit "A" WaitingForPeer ]
           eq_refl "B").
  simpl. by left.
Defined.

(** ** Properties of the server choice *)

Lemma search_certificates_loaded fs paths keyPath certPath key cert :
  search_certificates fs paths = Loaded keyPath certPath key cert →
  ∃ before after,
    paths = (before ++ (keyPath, certPath) :: after)%list ∧
    (∀ k c, In (k, c) before → existsSync fs k && existsSync fs c = false) ∧
    fs keyPath = Readable key ∧ fs certPath = Readable cert.
Proof.
  induction paths as [|[k c] rest IH]; simpl; [done|].
  destruct (existsSync fs k && existsSync fs c) eqn:Hex.
  - unfold readFileSync.
    destruct (fs k) as [|ck|mk] eqn:Hk; try done.
    destruct (fs c) as [|cc|mc] eqn:Hc; try done.
    intros [= <- <- <- <-]. exists [], rest. repeat split; done.
  - intros H. destruct (IH H) as (before & after & -> & Hb & Hk & Hc).
    exists ((k, c) :: before), after. repeat split; try done.
    intros k' c' [[= <- <-]|Hin]; [done|]. by apply Hb.
Qed.

(** X15. The server is an HTTPS server only if [USE_HTTPS] is the string
    true, [NODE_ENV] is not production, and the key and certificate it
    serves are the contents of the first pair of [certPaths] whose two
    files exist, accepted by [https.createServer]; in every other case,
    also when a read or [createServer] throws, it is an HTTP server. *)
Theorem https_only_with_first_certificates (USE_HTTPS NODE_ENV : option string)
    (fs : string → FileEntry) (createServer_throws : string → string → option string)
    (key cert : string) :
  (create_server USE_HTTPS NODE_ENV fs createServer_throws).1 = HttpsServer key cert ↔
  USE_HTTPS = Some "true" ∧ NODE_ENV ≠ Some "production" ∧
  createServer_throws key cert = None ∧
  ∃ keyPath certPath before after,
    certPaths = (before ++ (keyPath, certPath) :: after)%list ∧
    (∀ k c, In (k, c) before → existsSync fs k && existsSync fs c = false) ∧
    fs keyPath = Readable key ∧ fs certPath = Readable cert.
Proof.
  unfold create_server, useHTTPS. generalize certPaths. intros paths. split.
  - destruct (bool_decide (USE_HTTPS = Some "true")) eqn:Hu; [|done].
    destruct (bool_decide (NODE_ENV = Some "production")) eqn:Hn; [done|]. simpl.
    apply bool_decide_eq_true in Hu. apply bool_decide_eq_false in Hn.
    destruct (search_certificates fs paths) as [|kp cp k c|m] eqn:Hs; try done.
    destruct (createServer_throws k c) eqn:Hc; [done|]. simpl.
    intros [= <- <-].
    destruct (search_certificates_loaded _ _ _ _ _ _ Hs) as (b & a & H1 & H2 & H3 & H4).
    repeat split; try done. by exists kp, cp, b, a.
  - intros (Hu & Hn & Hc & kp & cp & before & after & Hpaths & Hb & Hk & Hcert).
    rewrite bool_decide_eq_true_2, bool_decide_eq_false_2 by done. simpl.
    assert (Hs : search_certificates fs paths = Loaded kp cp key cert).
    { rewrite Hpaths. clear Hpaths.
      induction before as [|[k c] before IH]; simpl.
      - unfold existsSync, readFileSync. by rewrite Hk, Hcert.
      - rewrite (Hb k c (or_introl eq_refl)). apply IH.
        intros k' c' Hin. apply Hb. by right. }
    by rewrite Hs, Hc.
Qed.

(** ** Properties of the client's server address *)

(** X16. Unless the address is configured by the environment, the client
    speaks plain HTTP only to a loopback host on a page that is itself not
    served over HTTPS: every other address it computes starts with
    [https://].  The older component always computes an [https://]
    address, and the two agree everywhere else. *)
Theorem server_url_http_only_on_loopback (env : option string)
    (window : option Location) (Henv : env_unset env) :
  (String.prefix "https://" (getServerUrl env window) = false →
   ∃ location, window = Some location ∧
               is_loopback (hostname location) = true ∧
               protocol location ≠ "https:" ∧
               getServerUrl env window =
                 String.append "http://" (String.append (hostname location) ":8080")) ∧
  String.prefix "https://" (getServerUrl_plain env window) = true ∧
  (String.prefix "https://" (getServerUrl env window) = true →
   getServerUrl env window = getServerUrl_plain env window).
Proof.
  assert (Hg : getServerUrl env window = getServerUrl None window)
    by (by destruct Henv as [->| ->]).
  assert (Hp : getServerUrl_plain env window = getServerUrl_plain None window)
    by (by destruct Henv as [->| ->]).
  rewrite Hg, Hp. clear Hg Hp Henv. unfold getServerUrl, getServerUrl_plain.
  assert (Hs : ∀ x, String.prefix "https://" (String.append "https://" x) = true)
    by (intros x; cbn; by destruct x).
  assert (Hn : ∀ x, String.prefix "https://" (String.append "http://" x) = false)
    by (intros x; reflexivity).
  destruct window as [[h p]|]; [|done].
  change (hostname {| hostname := h; protocol := p |}) with h.
  change (protocol {| hostname := h; protocol := p |}) with p.
  destruct (is_loopback h) eqn:Hl.
  - destruct (String.eqb p "https:") eqn:Hpr.
    + change (String.append "https" (String.append "://" (String.append h ":8080")))
        with (String.append "https://" (String.append h ":8080")).
      rewrite Hs. done.
    + change (String.append "http" (String.append "://" (String.append h ":8080")))
        with (String.append "http://" (String.append h ":8080")).
      rewrite Hs, Hn. split; [|done]. intros _.
      exists {| hostname := h; protocol := p |}.
      repeat split; try done. by apply String.eqb_neq.
  - destruct (matches_dotted_quad h); rewrite ?Hs; done.
Qed.

Lemma server_url_http_only_on_loopback_witness :
  getServerUrl None (Some {| hostname := "localhost"; protocol := "http:" |}) =
    "http://localhost:8080" ∧
  String.prefix "https://"
    (getServerUrl_plain None (Some {| hostname := "localhost"; protocol := "http:" |})) = true.
Proof.
  destruct (server_url_http_only_on_loopback None
              (Some {| hostname := "localhost"; protocol := "http:" |})
              (or_introl eq_refl)) as (H1 & H2 & _).
  split; [|exact H2].
  destruct (H1 eq_refl) as (location & [= <-] & _ & _ & H). exact H.
Defined.

Lemma skip_digits_split s :
  ∃ d, all_digits d = true ∧ s = String.append d (skip_digits s) ∧
       starts_without_digit (skip_digits s).
Proof.
  induction s as [|c s IH]; simpl.
  - by exists EmptyString.
  - destruct (is_digit c) eqn:Hc.
    + destruct IH as (d & Hd & Hs & Hr). exists (String c d).
      split; [simpl; by rewrite Hc, Hd|]. split; [|done].
      change (String c s = String c (String.append d (skip_digits s))). by rewrite <- Hs.
    + exists EmptyString. simpl. by rewrite Hc.
Qed.

Lemma skip_digits_app d r :
  all_digits d = true → starts_without_digit r →
  skip_digits (String.append d r) = r.
Proof.
  induction d as [|c d IH]; simpl; intros Hd Hr.
  - destruct r as [|c r]; simpl in *; [done|]. by rewrite Hr.
  - apply andb_true_iff in Hd as [Hc Hd]. rewrite Hc. by apply IH.
Qed.

Lemma digits_Some s r :
  digits s = Some r ↔
  ∃ d, digit_group d ∧ s = String.append d r ∧ starts_without_digit r.
Proof.
  split.
  - destruct s as [|c s]; simpl; [done|].
    destruct (is_digit c) eqn:Hc; [|done]. intros [= <-].
    destruct (skip_digits_split s) as (d & Hd & Hs & Hr).
    exists (String c d). split; [|split; [|done]].
    + split; [done|]. simpl. by rewrite Hc, Hd.
    + change (String c s = String c (String.append d (skip_digits s))). by rewrite <- Hs.
  - intros (d & [Hne Hd] & -> & Hr). destruct d as [|c d]; [done|]. simpl in *.
    apply andb_true_iff in Hd as [Hc Hd]. rewrite Hc.
    by rewrite skip_digits_app.
Qed.

Lemma dot_Some s r : dot s = Some r ↔ s = String "." r.
Proof.
  destruct s as [|c s]; simpl; [done|].
  destruct (Ascii.eqb c ".") eqn:Hc.
  - apply Ascii.eqb_eq in Hc as ->. split; by intros [= ->].
  - apply Ascii.eqb_neq in Hc. split; [done|]. intros [= -> _]. done.
Qed.

Lemma append_empty_r s : String.append s EmptyString = s.
Proof.
  induction s as [|c s IH]; [done|].
  change (String c (String.append s EmptyString) = String c s). by rewrite IH.
Qed.

(** X17. The client takes a host name for an IP address exactly when it is
    four non-empty runs of digits separated by three dots; the runs are not
    checked further, so 999.1.1.1 counts, and nothing may precede or
    follow. *)
Theorem dotted_quad_language (h : string) :
  matches_dotted_quad h = true ↔
  ∃ a b c d, digit_group a ∧ digit_group b ∧ digit_group c ∧ digit_group d ∧
    h = String.append a (String "." (String.append b (String "."
          (String.append c (String "." d))))).
Proof.
  unfold matches_dotted_quad. split.
  - destruct (digits h) as [r1|] eqn:H1; simpl; [|done].
    destruct (dot r1) as [r2|] eqn:H2; simpl; [|done].
    destruct (digits r2) as [r3|] eqn:H3; simpl; [|done].
    destruct (dot r3) as [r4|] eqn:H4; simpl; [|done].
    destruct (digits r4) as [r5|] eqn:H5; simpl; [|done].
    destruct (dot r5) as [r6|] eqn:H6; simpl; [|done].
    destruct (digits r6) as [[|? ?]|] eqn:H7; simpl; [|done|done]. intros _.
    apply digits_Some in H1 as (a & Ha & -> & _).
    apply dot_Some in H2 as ->.
    apply digits_Some in H3 as (b & Hb & -> & _).
    apply dot_Some in H4 as ->.
    apply digits_Some in H5 as (c & Hc & -> & _).
    apply dot_Some in H6 as ->.
    apply digits_Some in H7 as (d & Hd & -> & _).
    exists a, b, c, d. by rewrite append_empty_r.
  - intros (a & b & c & d & Ha & Hb & Hc & Hd & ->).
    assert (Hdot : ∀ r, starts_without_digit (String "." r)) by done.
    assert (H1 : ∀ g r, digit_group g → digits (String.append g (String "." r)) = Some (String "." r)).
    { intros g r Hg. apply digits_Some. by exists g. }
    assert (H2 : ∀ r, dot (String "." r) = Some r) by (intros r; by apply dot_Some).
    rewrite H1 by done. simpl. rewrite H1 by done. simpl. rewrite H1 by done. simpl.
    assert (H7 : digits d = Some EmptyString).
    { apply digits_Some. exists d. by rewrite append_empty_r. }
    by rewrite H7.
Qed.
